(** * zendesk-to-canny: collection pipeline and migration ledger

    A shallow embedding of the Go packages [zendesk] (paginated
    collection, enrichment, user batch loading), [canny] (destination
    client) and [main] (the migration state machine with its persisted
    ledger), followed by the properties proved about them.

    Conventions.
    - [int64] and [int] values are [Z]; none of the modelled code does
      arithmetic on identifiers, so no wrap-around arises.
    - A Go [error] is a value of the inductive type [error]; a function
      returning [(T, error)] returns [error + T], and one returning only
      [error] returns [option error] ([None] is Go's [nil]).
    - A pointer that may be [nil] is an [option]; a slice that the code
      compares with [nil] is an [option (list _)].
    - [map[K]V] is [gmap K V]; reading a missing key yields the zero
      value, which is written out at each lookup.
    - [for true { ... }] loops take a [fuel] bound and return [None]
      when it runs out. *)

From stdpp Require Import gmap strings list pretty.

#[local] Set Warnings "-clear-no-such-hyp".

Local Open Scope string_scope.
Local Open Scope Z_scope.
Local Open Scope list_scope.

(** ** Errors *)

Inductive error : Type :=
  | TransportError (msg : string)
  | ReadBodyError (cause : error)
  | StatusError (url : string) (code : Z) (body : string)
  | UnmarshalError (cause : error) (body : string)
  | JsonError (msg : string)
  | PostsPageError (page : Z) (cause : error)
  | PostsMissingError (page : Z)
  | CommentsPageError (page : Z) (postID : Z) (cause : error)
  | CommentsMissingError (page : Z) (postID : Z)
  | VotesPageError (page : Z) (postID : Z) (cause : error)
  | VotesMissingError (page : Z) (postID : Z)
  | UsersBatchError (cause : error)
  | NoUserError (objType : string)
  | VoteNotAcknowledged (postID voterID : string)
  | FileError (path : string)
  | LoadStateError (cause : error)
  | SaveStateError (cause : error).

(** What [net/http] hands back for one request: a status code and a body
    whose reading may itself fail. *)
Module Http.
Record Response : Type := mk { StatusCode : Z; Body : error + string }.
End Http.

(** ** Package zendesk: data model *)

Module User.
Record t : Type := mk {
  ID : Z;
  CreatedAt : string;
  Name : string;
  Email : string;
  ExternalID : string }.
End User.

Module Comment.
Record t : Type := mk {
  ID : Z;
  Body : string;
  AuthorID : Z;
  Author : option User.t }.
End Comment.

Module Vote.
Record t : Type := mk {
  ID : Z;
  UserID : Z;
  User : option User.t }.
End Vote.

Module Post.
Record t : Type := mk {
  ID : Z;
  Title : string;
  Details : string;
  AuthorID : Z;
  VoteCount : Z;
  CommentCount : Z;
  Comments : list Comment.t;
  UserVotes : list Vote.t;
  Author : option User.t }.
Definition withComments (p : t) (comments : list Comment.t) : t :=
  mk (ID p) (Title p) (Details p) (AuthorID p) (VoteCount p) (CommentCount p)
     comments (UserVotes p) (Author p).
Definition withUserVotes (p : t) (votes : list Vote.t) : t :=
  mk (ID p) (Title p) (Details p) (AuthorID p) (VoteCount p) (CommentCount p)
     (Comments p) votes (Author p).
End Post.

(** Response envelopes. The item array is [None] when the decoded slice
    is [nil] (key absent or [null]). *)
Record usersResponse : Type :=
  { ur_Users : option (list User.t); ur_NextPage : string }.
Record postsResponse : Type :=
  { pr_Posts : option (list Post.t); pr_NextPage : string }.
Record commentsResponse : Type :=
  { cr_Comments : option (list Comment.t); cr_NextPage : string }.
Record votesResponse : Type :=
  { vr_Votes : option (list Vote.t); vr_NextPage : string }.

(** [range] over a slice that may be [nil]. *)
Definition items {A} (s : option (list A)) : list A := default [] s.

(** The source collaborator: how the Zendesk server answers an
    authenticated GET of a URL, and how [encoding/json] decodes a body
    into each envelope. The server is a function of the URL: the source
    state is fixed while the tool runs. *)
Class Source : Type := {
  zDo : string → error + Http.Response;
  unmarshalPosts : string → error + postsResponse;
  unmarshalComments : string → error + commentsResponse;
  unmarshalVotes : string → error + votesResponse;
  unmarshalUsers : string → error + usersResponse }.

(** [zendesk.Client]; a [nil] [Users] map reads like the empty one. *)
Module Client.
Record t : Type := mk {
  Username : string;
  Password : string;
  BaseURL : string;
  Users : gmap Z (option User.t) }.
Definition withUsers (s : t) (u : gmap Z (option User.t)) : t :=
  mk (Username s) (Password s) (BaseURL s) u.
End Client.

(** [Client.GetPosts] up to [routinesWG.Wait()]: what the three readers
    have accumulated once every channel is closed. *)
Module Gathered.
Record t : Type := mk {
  posts : list Post.t;
  errs : list error;
  fatalError : option error;
  usersToLoad : list Z;
  client : Client.t }.
End Gathered.

(** The requests issued so far, oldest first. *)
Abbreviation Net := (list string).

Section zendesk.
Context `{!Source}.

(** [Client.get]: one request is issued; a transport failure, an
    unreadable body, a status other than 200 and an undecodable body
    are errors, in that order. *)
Definition get {A} (unmarshal : string → error + A) (url : string) (net : Net)
    : (error + A) * Net :=
  let net' := net ++ [url] in
  match zDo url with
  | inl err => (inl err, net')
  | inr resp =>
    match Http.Body resp with
    | inl err => (inl (ReadBodyError err), net')
    | inr body =>
      if decide (Http.StatusCode resp ≠ 200)
      then (inl (StatusError url (Http.StatusCode resp) body), net')
      else match unmarshal body with
           | inl err => (inl (UnmarshalError err body), net')
           | inr dst => (inr dst, net')
           end
    end
  end.

Definition commentsURL (base : string) (postID : Z) : string :=
  base +:+ "/api/v2/community/posts/" +:+ pretty postID
       +:+ "/comments.json?sort_by=created_at".

Definition votesURL (base : string) (postID : Z) : string :=
  base +:+ "/api/v2/community/posts/" +:+ pretty postID
       +:+ "/votes.json?sort_by=created_at".

Definition postsURL (base topic : string) : string :=
  base +:+ "/api/v2/community/topics/" +:+ topic
       +:+ "/posts.json?sort_by=created_at".

(** The loop of [Client.getComments], entered with the current [url],
    [page] and accumulated [comments]. *)
Fixpoint getComments_loop (fuel : nat) (postID : Z) (url : string) (page : Z)
    (comments : list Comment.t) (net : Net)
    : option (error + list Comment.t) * Net :=
  match fuel with
  | O => (None, net)
  | S fuel =>
    match get unmarshalComments url net with
    | (inl err, net) => (Some (inl (CommentsPageError page postID err)), net)
    | (inr response, net) =>
      if decide (cr_Comments response = None ∧ cr_NextPage response ≠ "")
      then (Some (inl (CommentsMissingError page postID)), net)
      else
        let comments := comments ++ items (cr_Comments response) in
        if decide (cr_NextPage response = "")
        then (Some (inr comments), net)
        else getComments_loop fuel postID (cr_NextPage response) (page + 1)
                              comments net
    end
  end.

Definition getComments (fuel : nat) (s : Client.t) (postID : Z) (net : Net)
    : option (error + list Comment.t) * Net :=
  getComments_loop fuel postID (commentsURL (Client.BaseURL s) postID) 0 [] net.

(** The loop of [Client.getVotes]. *)
Fixpoint getVotes_loop (fuel : nat) (postID : Z) (url : string) (page : Z)
    (votes : list Vote.t) (net : Net)
    : option (error + list Vote.t) * Net :=
  match fuel with
  | O => (None, net)
  | S fuel =>
    match get unmarshalVotes url net with
    | (inl err, net) => (Some (inl (VotesPageError page postID err)), net)
    | (inr response, net) =>
      if decide (vr_Votes response = None ∧ vr_NextPage response ≠ "")
      then (Some (inl (VotesMissingError page postID)), net)
      else
        let votes := votes ++ items (vr_Votes response) in
        if decide (vr_NextPage response = "")
        then (Some (inr votes), net)
        else getVotes_loop fuel postID (vr_NextPage response) (page + 1)
                           votes net
    end
  end.

Definition getVotes (fuel : nat) (s : Client.t) (postID : Z) (net : Net)
    : option (error + list Vote.t) * Net :=
  getVotes_loop fuel postID (votesURL (Client.BaseURL s) postID) 0 [] net.

(** The body of one worker of [Client.detailsLoader] for one [post]
    received from [postsCh]: the ids it sends on [usersCh], in order, and
    what it sends last, either the error (on [errCh]) or the enriched
    post (on [resCh]). After a failed fetch the worker [continue]s: the
    post is sent nowhere. *)
Definition loadDetails (fuel : nat) (s : Client.t) (post : Post.t) (net : Net)
    : option (list Z * (error + Post.t)) * Net :=
  let users := [Post.AuthorID post] in
  let afterComments : option (list Z * (error + Post.t)) * Net :=
    if decide (0 < Post.CommentCount post) then
      match getComments fuel s (Post.ID post) net with
      | (None, net) => (None, net)
      | (Some (inl err), net) => (Some (users, inl err), net)
      | (Some (inr comments), net) =>
        (Some (users ++ map Comment.AuthorID comments,
               inr (Post.withComments post comments)), net)
      end
    else (Some (users, inr post), net) in
  match afterComments with
  | (Some (users, inr post), net) =>
    if decide (0 < Post.VoteCount post) then
      match getVotes fuel s (Post.ID post) net with
      | (None, net) => (None, net)
      | (Some (inl err), net) => (Some (users, inl err), net)
      | (Some (inr votes), net) =>
        (Some (users ++ map Vote.UserID votes,
               inr (Post.withUserVotes post votes)), net)
      end
    else (Some (users, inr post), net)
  | stopped => stopped
  end.

(** [Client.detailsLoader] over the posts written to [postsCh]: the
    contents of [resCh], [usersCh] and [errCh] once all workers have
    exited. The embedding fixes one schedule, in which the posts are
    handled one after the other in queue order; with more than one worker
    the three streams may interleave differently. *)
Fixpoint detailsLoader (fuel : nat) (s : Client.t) (postsCh : list Post.t)
    (net : Net) : option (list Post.t * list Z * list error) * Net :=
  match postsCh with
  | [] => (Some ([], [], []), net)
  | post :: postsCh =>
    match loadDetails fuel s post net with
    | (None, net) => (None, net)
    | (Some (ids, sent), net) =>
      match detailsLoader fuel s postsCh net with
      | (None, net) => (None, net)
      | (Some (resCh, usersCh, errCh), net) =>
        (Some (match sent with inr p => p :: resCh | inl _ => resCh end,
               ids ++ usersCh,
               match sent with inl err => err :: errCh | inr _ => errCh end),
         net)
      end
    end
  end.

(** The single reader of [usersCh] in [Client.GetPosts]: an id that is
    not yet a key of the cache is marked with [nil] and appended to
    [usersToLoad]. *)
Fixpoint collectUsers (usersCh : list Z) (users : gmap Z (option User.t))
    (usersToLoad : list Z) : gmap Z (option User.t) * list Z :=
  match usersCh with
  | [] => (users, usersToLoad)
  | userID :: usersCh =>
    match users !! userID with
    | None =>
      collectUsers usersCh (<[userID := None]> users) (usersToLoad ++ [userID])
    | Some _ => collectUsers usersCh users usersToLoad
    end
  end.

Fixpoint idsToString (ids : list Z) (delim : string) : string :=
  match ids with
  | [] => ""
  | [id] => pretty id
  | id :: rest => pretty id +:+ delim +:+ idsToString rest delim
  end.

Definition batchSize : nat := 100.

(** The splitting loop of [Client.loadUsers]:
    [for batchSize < len(ids) { ids, batches = ids[batchSize:], append(batches, ids[0:batchSize]) }]
    followed by [batches = append(batches, ids)]. Every iteration
    shortens [ids], so [n = length ids] iterations are never exceeded. *)
Fixpoint splitBatches_loop (n : nat) (ids : list Z) (batches : list (list Z))
    : list (list Z) :=
  match n with
  | O => batches ++ [ids]
  | S n =>
    if decide (batchSize < length ids)%nat
    then splitBatches_loop n (drop batchSize ids) (batches ++ [take batchSize ids])
    else batches ++ [ids]
  end.

Definition splitBatches (ids : list Z) : list (list Z) :=
  splitBatches_loop (length ids) ids [].

Definition usersURL (base : string) (batch : list Z) : string :=
  base +:+ "/api/v2/users/show_many.json?ids=" +:+ idsToString batch ",".

(** [for _, user := range response.Users { s.Users[user.ID] = user }] *)
Definition storeUsers (users : gmap Z (option User.t)) (loaded : list User.t)
    : gmap Z (option User.t) :=
  foldl (λ users user, <[User.ID user := Some user]> users) users loaded.

(** The request loop of [Client.loadUsers] over the batches. *)
Fixpoint loadBatches (s : Client.t) (batches : list (list Z)) (net : Net)
    : option error * Client.t * Net :=
  match batches with
  | [] => (None, s, net)
  | batch :: batches =>
    match get unmarshalUsers (usersURL (Client.BaseURL s) batch) net with
    | (inl err, net) => (Some (UsersBatchError err), s, net)
    | (inr response, net) =>
      loadBatches
        (Client.withUsers s (storeUsers (Client.Users s) (items (ur_Users response))))
        batches net
    end
  end.

Definition loadUsers (s : Client.t) (ids : list Z) (net : Net)
    : option error * Client.t * Net :=
  loadBatches s (splitBatches ids) net.

(** [s.Users[id]]: [nil] for a missing key. *)
Definition cachedUser (users : gmap Z (option User.t)) (id : Z) : option User.t :=
  default None (users !! id).

Definition setUsers (s : Client.t) (posts : list Post.t) : list Post.t :=
  map (λ post,
    Post.mk (Post.ID post) (Post.Title post) (Post.Details post)
      (Post.AuthorID post) (Post.VoteCount post) (Post.CommentCount post)
      (map (λ comment,
         Comment.mk (Comment.ID comment) (Comment.Body comment)
           (Comment.AuthorID comment)
           (cachedUser (Client.Users s) (Comment.AuthorID comment)))
         (Post.Comments post))
      (map (λ vote,
         Vote.mk (Vote.ID vote) (Vote.UserID vote)
           (cachedUser (Client.Users s) (Vote.UserID vote)))
         (Post.UserVotes post))
      (cachedUser (Client.Users s) (Post.AuthorID post)))
    posts.

(** The page loop of [Client.GetPosts]: the posts written to
    [loadPostsCh] so far and, when the loop [break]s on a failure, the
    fatal error. *)
Fixpoint getPosts_loop (fuel : nat) (url : string) (page : Z)
    (sent : list Post.t) (net : Net)
    : option (list Post.t * option error) * Net :=
  match fuel with
  | O => (None, net)
  | S fuel =>
    match get unmarshalPosts url net with
    | (inl err, net) => (Some (sent, Some (PostsPageError page err)), net)
    | (inr response, net) =>
      if decide (pr_Posts response = None ∧ pr_NextPage response ≠ "")
      then (Some (sent, Some (PostsMissingError page)), net)
      else
        let sent := sent ++ items (pr_Posts response) in
        if decide (pr_NextPage response = "")
        then (Some (sent, None), net)
        else getPosts_loop fuel (pr_NextPage response) (page + 1) sent net
    end
  end.

(** With no worker ([parallel = 0]) the first send on [loadPostsCh]
    blocks for ever, and a negative count makes [WaitGroup.Add] panic:
    in both cases the call does not return ([None]). The requests of the
    page loop are logged before those of the workers. *)
Definition gatherPosts (fuel : nat) (s : Client.t) (topic : string)
    (parallel : Z) (net : Net) : option Gathered.t * Net :=
  if decide (parallel < 0) then (None, net) else
  match getPosts_loop fuel (postsURL (Client.BaseURL s) topic) 0 [] net with
  | (None, net) => (None, net)
  | (Some (sent, fatalError), net) =>
    if decide (parallel = 0 ∧ sent ≠ []) then (None, net) else
    match detailsLoader fuel s sent net with
    | (None, net) => (None, net)
    | (Some (posts, usersCh, errs), net) =>
      let '(users, usersToLoad) := collectUsers usersCh (Client.Users s) [] in
      (Some (Gathered.mk posts errs fatalError usersToLoad
                         (Client.withUsers s users)), net)
    end
  end.

(** [Client.GetPosts]; the callbacks only log and are left out. A failed
    user load returns [nil, nil, err]. *)
Definition GetPosts (fuel : nat) (s : Client.t) (topic : string)
    (parallel : Z) (net : Net)
    : option (list Post.t * list error * option error * Client.t) * Net :=
  match gatherPosts fuel s topic parallel net with
  | (None, net) => (None, net)
  | (Some g, net) =>
    match loadUsers (Gathered.client g) (Gathered.usersToLoad g) net with
    | (Some err, s, net) => (Some ([], [], Some err, s), net)
    | (None, s, net) =>
      (Some (setUsers s (Gathered.posts g), Gathered.errs g,
             Gathered.fatalError g, s), net)
    end
  end.

End zendesk.

(** ** Package canny: the destination client *)

Module canny.

(** Request bodies. [ImageURLs], [ParentID] and [AvatarURL] are never set
    by the migration and are left out. *)
Record CreatePost : Type :=
  { cp_AuthorID : string; cp_BoardID : string; cp_Details : string;
    cp_Title : string }.
Record CreateComment : Type :=
  { cc_AuthorID : string; cc_PostID : string; cc_Value : string }.
Record CreateVote : Type :=
  { cv_PostID : string; cv_VoterID : string }.
Record FindOrCreateUser : Type :=
  { fu_Created : string; fu_Email : string; fu_Name : string;
    fu_UserID : string }.

(** The four request structs, each carrying the API key. *)
Inductive Request : Type :=
  | createPostRequest (APIKey : string) (post : CreatePost)
  | createCommentRequest (APIKey : string) (comment : CreateComment)
  | createVoteRequest (APIKey : string) (vote : CreateVote)
  | findOrCreateUserRequest (APIKey : string) (user : FindOrCreateUser).

(** The calls received by the destination so far, oldest first: the URL
    and the request posted to it. *)
Abbreviation Calls := (list (string * Request)).

(** The destination collaborator: how the Canny server answers a POST,
    given everything it has received before, and how [encoding/json]
    decodes a body into [response{ID}]. *)
Class Destination : Type := {
  cDo : Calls → string → Request → error + Http.Response;
  unmarshalID : string → error + string }.

Module Client.
Record t : Type := mk { APIKey : string; BaseURL : string }.

Section methods.
Context `{!Destination}.

(** [Client.post]; [dst] stands for the last step, which depends on the
    type of the destination value. *)
Definition post {A} (dst : string → error + A) (url : string) (src : Request)
    (calls : Calls) : (error + A) * Calls :=
  let calls' := calls ++ [(url, src)] in
  match cDo calls url src with
  | inl err => (inl err, calls')
  | inr resp =>
    match Http.Body resp with
    | inl err => (inl (ReadBodyError err), calls')
    | inr resBody =>
      if decide (Http.StatusCode resp ≠ 200)
      then (inl (StatusError url (Http.StatusCode resp) resBody), calls')
      else (dst resBody, calls')
    end
  end.

(** [dst] is a pointer to a string: the raw body. *)
Definition intoString (resBody : string) : error + string := inr resBody.

(** [json.Unmarshal(resBody, dst)] for [dst] a pointer to [response], giving [resp.ID]. *)
Definition intoResponse (resBody : string) : error + string :=
  match unmarshalID resBody with
  | inl err => inl (UnmarshalError err resBody)
  | inr id => inr id
  end.

Definition CreatePost (s : t) (p : canny.CreatePost) (calls : Calls)
    : (error + string) * Calls :=
  post intoResponse (BaseURL s +:+ "/api/v1/posts/create")
       (createPostRequest (APIKey s) p) calls.

Definition CreateComment (s : t) (comment : CreateComment) (calls : Calls)
    : (error + string) * Calls :=
  post intoResponse (BaseURL s +:+ "/api/v1/comments/create")
       (createCommentRequest (APIKey s) comment) calls.

Definition CreateVote (s : t) (vote : CreateVote) (calls : Calls)
    : option error * Calls :=
  match post intoString (BaseURL s +:+ "/api/v1/votes/create")
             (createVoteRequest (APIKey s) vote) calls with
  | (inl err, calls) => (Some err, calls)
  | (inr resp, calls) =>
    if decide (resp ≠ "success")
    then (Some (VoteNotAcknowledged (cv_PostID vote) (cv_VoterID vote)), calls)
    else (None, calls)
  end.

Definition FindOrCreateUser (s : t) (user : FindOrCreateUser)
    (calls : Calls) : (error + string) * Calls :=
  post intoResponse (BaseURL s +:+ "/api/v1/users/find_or_create")
       (findOrCreateUserRequest (APIKey s) user) calls.

End methods.
End Client.
End canny.

(** ** Package main: the migration state machine *)

(** The part of the file system the tool touches, as [os.Stat],
    [ioutil.ReadFile] and [ioutil.WriteFile] see it: a path either does
    not exist, is a directory, or is a regular file with contents. *)
Inductive FileNode : Type :=
  | RegularFile (data : string)
  | Directory.

Abbreviation FS := (gmap string FileNode).

(** [fileExists]: [false] when [os.Stat] reports that the path does not
    exist, otherwise [!info.IsDir()]. *)
Definition fileExists (fs : FS) (filename : string) : bool :=
  match fs !! filename with
  | None => false
  | Some Directory => false
  | Some (RegularFile _) => true
  end.

Definition ReadFile (fs : FS) (filename : string) : error + string :=
  match fs !! filename with
  | Some (RegularFile data) => inr data
  | _ => inl (FileError filename)
  end.

(** Writing creates or truncates a regular file; the empty path and a
    directory cannot be written. *)
Definition WriteFile (fs : FS) (filename : string) (data : string)
    : option error * FS :=
  if decide (filename = "") then (Some (FileError filename), fs)
  else match fs !! filename with
       | Some Directory => (Some (FileError filename), fs)
       | _ => (None, <[filename := RegularFile data]> fs)
       end.

(** The ledger: topic, then ["<kind>_<id>"], to destination id. An inner
    map that is [nil] reads like a missing topic. *)
Abbreviation Ledger := (gmap string (gmap string string)).

(** [encoding/json] at the type of the ledger. [Unmarshal raw dst] is
    [json.Unmarshal(raw, &dst)]: the value left in [dst], or an error. *)
Class StateJSON : Type := {
  MarshalIndent : Ledger → error + string;
  Unmarshal : string → Ledger → error + Ledger }.

(** [sanitize.HTML] of the [sanitize] package. *)
Class Sanitizer : Type := { sanitizeHTML : string → string }.

Module Migration.
(** [Topics] lists the entries of the Go map in the order in which
    [range] happens to visit them. [Logger] is left out; what it reports
    per topic is returned by [Migrate] as a [TopicReport]. *)
Record t : Type := mk {
  ZClient : Client.t;
  CClient : canny.Client.t;
  Topics : list (string * string);
  Verbose : bool;
  DefaultUserID : string;
  ParallelLoad : Z;
  StateFile : string;
  UserMapping : gmap Z string;
  state : Ledger }.
Definition withZClient (s : t) (z : Client.t) : t :=
  mk z (CClient s) (Topics s) (Verbose s) (DefaultUserID s) (ParallelLoad s)
     (StateFile s) (UserMapping s) (state s).
Definition withUserMapping (s : t) (um : gmap Z string) : t :=
  mk (ZClient s) (CClient s) (Topics s) (Verbose s) (DefaultUserID s)
     (ParallelLoad s) (StateFile s) um (state s).
Definition withState (s : t) (st : Ledger) : t :=
  mk (ZClient s) (CClient s) (Topics s) (Verbose s) (DefaultUserID s)
     (ParallelLoad s) (StateFile s) (UserMapping s) st.
End Migration.

(** The summary line logged for a topic: skipped on a fatal error of
    [GetPosts], or migrated with its counts of posts and errors. *)
Inductive TopicReport : Type :=
  | TopicSkipped (zTopic : string) (fatalError : error)
  | TopicMigrated (zTopic cBoard : string) (success fail : Z).


Section migration.
Context `{!Source, !canny.Destination, !StateJSON, !Sanitizer}.

Definition sanitizeString (htmlStr : string) : string := sanitizeHTML htmlStr.

(** [fmt.Sprintf("%s_%d", objType, id)] *)
Definition formatKey (objType : string) (id : Z) : string :=
  objType +:+ "_" +:+ pretty id.

Definition getIDFromState (s : Migration.t) (zTopic objType : string) (id : Z)
    : string :=
  match Migration.state s !! zTopic with
  | None => ""
  | Some topicState => default "" (topicState !! formatKey objType id)
  end.

Definition saveIDToState (s : Migration.t) (zTopic objType : string) (id : Z)
    (cannyID : string) : Migration.t :=
  let topicState := default ∅ (Migration.state s !! zTopic) in
  Migration.withState s
    (<[zTopic := <[formatKey objType id := cannyID]> topicState]>
       (Migration.state s)).

Definition findOrCreateUser (s : Migration.t) (user : User.t)
    (calls : canny.Calls) : (error + string) * Migration.t * canny.Calls :=
  let knownUserID := default "" (Migration.UserMapping s !! User.ID user) in
  if decide (knownUserID ≠ "") then (inr knownUserID, s, calls)
  else
    match canny.Client.FindOrCreateUser (Migration.CClient s)
            {| canny.fu_Created := User.CreatedAt user;
               canny.fu_Email := User.Email user;
               canny.fu_Name := User.Name user;
               canny.fu_UserID := User.ExternalID user |} calls with
    | (inl err, calls) => (inl err, s, calls)
    | (inr userID, calls) =>
      (inr userID,
       Migration.withUserMapping s
         (<[User.ID user := userID]> (Migration.UserMapping s)),
       calls)
    end.

Definition resolveUser (s : Migration.t) (user : option User.t)
    (objType : string) (calls : canny.Calls)
    : (error + string) * Migration.t * canny.Calls :=
  match user with
  | None =>
    if decide (Migration.DefaultUserID s = "")
    then (inl (NoUserError objType), s, calls)
    else (inr (Migration.DefaultUserID s), s, calls)
  | Some user => findOrCreateUser s user calls
  end.

Definition createPost (s : Migration.t) (post : Post.t) (cBoard : string)
    (calls : canny.Calls) : (error + string) * Migration.t * canny.Calls :=
  match resolveUser s (Post.Author post) "post" calls with
  | (inl err, s, calls) => (inl err, s, calls)
  | (inr userID, s, calls) =>
    let '(res, calls) :=
      canny.Client.CreatePost (Migration.CClient s)
        {| canny.cp_AuthorID := userID;
           canny.cp_BoardID := cBoard;
           canny.cp_Details := sanitizeString (Post.Details post);
           canny.cp_Title := sanitizeString (Post.Title post) |} calls in
    (res, s, calls)
  end.

Definition createComment (s : Migration.t) (comment : Comment.t)
    (postID : string) (calls : canny.Calls)
    : (error + string) * Migration.t * canny.Calls :=
  match resolveUser s (Comment.Author comment) "comment" calls with
  | (inl err, s, calls) => (inl err, s, calls)
  | (inr userID, s, calls) =>
    let '(res, calls) :=
      canny.Client.CreateComment (Migration.CClient s)
        {| canny.cc_AuthorID := userID;
           canny.cc_PostID := postID;
           canny.cc_Value := sanitizeString (Comment.Body comment) |} calls in
    (res, s, calls)
  end.

Definition createVote (s : Migration.t) (vote : Vote.t) (postID : string)
    (calls : canny.Calls) : (error + string) * Migration.t * canny.Calls :=
  match resolveUser s (Vote.User vote) "vote" calls with
  | (inl err, s, calls) => (inl err, s, calls)
  | (inr userID, s, calls) =>
    match canny.Client.CreateVote (Migration.CClient s)
            {| canny.cv_PostID := postID; canny.cv_VoterID := userID |}
            calls with
    | (Some err, calls) => (inl err, s, calls)
    | (None, calls) => (inr "s", s, calls)
    end
  end.

(** The loop of [migratePost] over [post.Comments]. *)
Fixpoint migrateComments (s : Migration.t) (comments : list Comment.t)
    (zTopic postID : string) (calls : canny.Calls)
    : option error * Migration.t * canny.Calls :=
  match comments with
  | [] => (None, s, calls)
  | comment :: comments =>
    if decide (getIDFromState s zTopic "comment" (Comment.ID comment) ≠ "")
    then migrateComments s comments zTopic postID calls
    else
      match createComment s comment postID calls with
      | (inl err, s, calls) => (Some err, s, calls)
      | (inr commentID, s, calls) =>
        migrateComments
          (saveIDToState s zTopic "comment" (Comment.ID comment) commentID)
          comments zTopic postID calls
      end
  end.

(** The loop of [migratePost] over [post.UserVotes]. *)
Fixpoint migrateVotes (s : Migration.t) (votes : list Vote.t)
    (zTopic postID : string) (calls : canny.Calls)
    : option error * Migration.t * canny.Calls :=
  match votes with
  | [] => (None, s, calls)
  | vote :: votes =>
    if decide (getIDFromState s zTopic "vote" (Vote.ID vote) ≠ ""
               ∨ Vote.User vote = None)
    then migrateVotes s votes zTopic postID calls
    else
      match createVote s vote postID calls with
      | (inl err, s, calls) => (Some err, s, calls)
      | (inr voteSuccess, s, calls) =>
        migrateVotes
          (saveIDToState s zTopic "vote" (Vote.ID vote) voteSuccess)
          votes zTopic postID calls
      end
  end.

Definition migratePost (s : Migration.t) (post : Post.t) (zTopic cBoard : string)
    (calls : canny.Calls) : option error * Migration.t * canny.Calls :=
  let postID := getIDFromState s zTopic "post" (Post.ID post) in
  let created : (error + string) * Migration.t * canny.Calls :=
    if decide (postID = "") then
      match createPost s post cBoard calls with
      | (inl err, s, calls) => (inl err, s, calls)
      | (inr postID, s, calls) =>
        (inr postID, saveIDToState s zTopic "post" (Post.ID post) postID, calls)
      end
    else (inr postID, s, calls) in
  match created with
  | (inl err, s, calls) => (Some err, s, calls)
  | (inr postID, s, calls) =>
    match migrateComments s (Post.Comments post) zTopic postID calls with
    | (Some err, s, calls) => (Some err, s, calls)
    | (None, s, calls) =>
      migrateVotes s (Post.UserVotes post) zTopic postID calls
    end
  end.

Definition loadState (s : Migration.t) (fs : FS) : option error * Migration.t :=
  if decide (Migration.StateFile s = ""
             ∨ fileExists fs (Migration.StateFile s) = false)
  then (None, Migration.withState s ∅)
  else
    match ReadFile fs (Migration.StateFile s) with
    | inl err => (Some err, s)
    | inr raw =>
      match Unmarshal raw (Migration.state s) with
      | inl err => (Some err, s)
      | inr st => (None, Migration.withState s st)
      end
    end.

Definition saveState (s : Migration.t) (fs : FS) : option error * FS :=
  match MarshalIndent (Migration.state s) with
  | inl err => (Some err, fs)
  | inr data => WriteFile fs (Migration.StateFile s) data
  end.

(** The loop of [Migrate] over the posts of one topic, with its two
    counters. *)
Fixpoint migratePosts (s : Migration.t) (posts : list Post.t)
    (zTopic cBoard : string) (calls : canny.Calls) (success fail : Z)
    : Migration.t * canny.Calls * Z * Z :=
  match posts with
  | [] => (s, calls, success, fail)
  | post :: posts =>
    match migratePost s post zTopic cBoard calls with
    | (Some _, s, calls) =>
      migratePosts s posts zTopic cBoard calls success (fail + 1)
    | (None, s, calls) =>
      migratePosts s posts zTopic cBoard calls (success + 1) fail
    end
  end.

(** The loop of [Migrate] over [s.Topics]. *)
Fixpoint migrateTopics (fuel : nat) (s : Migration.t)
    (topics : list (string * string)) (net : Net) (calls : canny.Calls)
    : option (Migration.t * Net * canny.Calls * list TopicReport) :=
  match topics with
  | [] => Some (s, net, calls, [])
  | (zTopic, cBoard) :: topics =>
    match GetPosts fuel (Migration.ZClient s) zTopic (Migration.ParallelLoad s)
                   net with
    | (None, _) => None
    | (Some (posts, errs, fatalError, zclient), net) =>
      let s := Migration.withZClient s zclient in
      match fatalError with
      | Some err =>
        match migrateTopics fuel s topics net calls with
        | None => None
        | Some (s, net, calls, reports) =>
          Some (s, net, calls, TopicSkipped zTopic err :: reports)
        end
      | None =>
        let '(s, calls, success, fail) :=
          migratePosts s posts zTopic cBoard calls 0 0 in
        match migrateTopics fuel s topics net calls with
        | None => None
        | Some (s, net, calls, reports) =>
          Some (s, net, calls,
                TopicMigrated zTopic cBoard success fail :: reports)
        end
      end
    end
  end.

(** [Migration.Migrate]. A [nil] [UserMapping] is replaced by an empty
    map, which reads the same. *)
Definition Migrate (fuel : nat) (s : Migration.t) (fs : FS) (net : Net)
    (calls : canny.Calls)
    : option (option error * Migration.t * FS * Net * canny.Calls
              * list TopicReport) :=
  match loadState s fs with
  | (Some err, s) => Some (Some (LoadStateError err), s, fs, net, calls, [])
  | (None, s) =>
    match migrateTopics fuel s (Migration.Topics s) net calls with
    | None => None
    | Some (s, net, calls, reports) =>
      match saveState s fs with
      | (Some err, fs) =>
        Some (Some (SaveStateError err), s, fs, net, calls, reports)
      | (None, fs) => Some (None, s, fs, net, calls, reports)
      end
    end
  end.

End migration.

(** * Vocabulary of the properties *)

(** ** Paginated fetching *)

(** The answer to a GET does not depend on the requests made before. *)
Definition fetch `{!Source} {A} (unmarshal : string → error + A) (url : string)
    : error + A :=
  (get unmarshal url []).1.

(** A chain of pages starting at [url]: each page decodes to an item
    array and a cursor, the cursor of every page but the last is the URL
    of the next one, and the cursor of the last page is empty. *)
Inductive PageChain `{!Source} {R A} (unmarshal : string → error + R)
    (itemsOf : R → option (list A)) (nextOf : R → string)
    : string → list (list A) → Prop :=
  | PageChain_last url response page :
      fetch unmarshal url = inr response →
      itemsOf response = Some page →
      nextOf response = "" →
      PageChain unmarshal itemsOf nextOf url [page]
  | PageChain_next url response page pages :
      fetch unmarshal url = inr response →
      itemsOf response = Some page →
      nextOf response ≠ "" →
      PageChain unmarshal itemsOf nextOf (nextOf response) pages →
      PageChain unmarshal itemsOf nextOf url (page :: pages).



(** ** User loading *)

(** The lists handed to [loadUsers] by the successive calls of
    [GetPosts] that one run makes on its client, one per topic, in
    order. *)
Fixpoint batchLoaderInputs `{!Source} (fuel : nat) (s : Client.t)
    (topics : list string) (parallel : Z) (net : Net) : list (list Z) :=
  match topics with
  | [] => []
  | topic :: topics =>
    match gatherPosts fuel s topic parallel net with
    | (None, _) => []
    | (Some g, _) =>
      Gathered.usersToLoad g ::
        match GetPosts fuel s topic parallel net with
        | (Some (_, _, _, s'), net') =>
          batchLoaderInputs fuel s' topics parallel net'
        | (None, _) => []
        end
    end
  end.

(** The same under any schedule of the workers: for each topic the
    reader of [usersCh] receives some sequence of ids, and between two
    topics the cache loses no key. *)
Inductive LoaderRun : gmap Z (option User.t) → list (list Z) → Prop :=
  | LoaderRun_done users : LoaderRun users []
  | LoaderRun_topic users usersCh users' inputs :
      (∀ id, is_Some ((collectUsers usersCh users []).1 !! id) →
             is_Some (users' !! id)) →
      LoaderRun users' inputs →
      LoaderRun users ((collectUsers usersCh users []).2 :: inputs).

(** ** The ledger *)

(** The entry of the ledger for a topic and a key, if there is one. *)
Definition entry (st : Ledger) (zTopic key : string) : option string :=
  st !! zTopic ≫= λ topicState, topicState !! key.

(** [st'] keeps what [st] has committed: every entry of [st] is still an
    entry of [st'], and with the same destination id when that id is not
    empty. *)
Definition Keeps (st st' : Ledger) : Prop :=
  ∀ zTopic key id, entry st zTopic key = Some id →
    is_Some (entry st' zTopic key)
    ∧ (id ≠ "" → entry st' zTopic key = Some id).




(** The ledger keys of the records of a post, and of a list of posts. *)
Definition postKeys (post : Post.t) : list string :=
  formatKey "post" (Post.ID post)
  :: map (λ comment, formatKey "comment" (Comment.ID comment))
         (Post.Comments post)
  ++ map (λ vote, formatKey "vote" (Vote.ID vote)) (Post.UserVotes post).

Definition keysOf (posts : list Post.t) : list string := posts ≫= postKeys.

(** A cached destination user id stays what it is. *)
Definition KeepsUsers (um um' : gmap Z string) : Prop :=
  ∀ id userID, um !! id = Some userID → userID ≠ "" → um' !! id = Some userID.

(** What a step of the migration may change: the ledger and the user
    mapping grow as [Keeps] and [KeepsUsers] allow, the destination
    receives further calls, and the configuration stays as it is. *)
Record Advances (s : Migration.t) (calls : canny.Calls)
    (s' : Migration.t) (calls' : canny.Calls) : Prop := {
  adv_ZClient : Migration.ZClient s' = Migration.ZClient s;
  adv_CClient : Migration.CClient s' = Migration.CClient s;
  adv_Topics : Migration.Topics s' = Migration.Topics s;
  adv_DefaultUserID : Migration.DefaultUserID s' = Migration.DefaultUserID s;
  adv_ParallelLoad : Migration.ParallelLoad s' = Migration.ParallelLoad s;
  adv_StateFile : Migration.StateFile s' = Migration.StateFile s;
  adv_state : Keeps (Migration.state s) (Migration.state s');
  adv_UserMapping : KeepsUsers (Migration.UserMapping s) (Migration.UserMapping s');
  adv_calls : ∃ new, calls' = calls ++ new }.

(** [st'] differs from [st] at most at the given keys of one topic. *)
Definition Touches (st st' : Ledger) (zTopic : string) (keys : list string)
    : Prop :=
  ∀ zTopic' key,
    (zTopic' = zTopic ∧ key ∈ keys) ∨ entry st' zTopic' key = entry st zTopic' key.

(** The first step of [migratePost]: the destination id of the post,
    looked up in the ledger or else obtained by creating the post. *)
Definition ensurePost `{!canny.Destination, !Sanitizer} (s : Migration.t)
    (post : Post.t) (zTopic cBoard : string) (calls : canny.Calls)
    : (error + string) * Migration.t * canny.Calls :=
  if decide (getIDFromState s zTopic "post" (Post.ID post) = "") then
    match createPost s post cBoard calls with
    | (inl err, s, calls) => (inl err, s, calls)
    | (inr postID, s, calls) =>
      (inr postID, saveIDToState s zTopic "post" (Post.ID post) postID, calls)
    end
  else (inr (getIDFromState s zTopic "post" (Post.ID post)), s, calls).

(** ** Enrichment *)

(** What a worker sends for a post; it does not depend on the requests
    made before. *)
Definition enrich `{!Source} (fuel : nat) (s : Client.t) (post : Post.t)
    : option (list Z * (error + Post.t)) :=
  (loadDetails fuel s post []).1.

Definition enriched `{!Source} (fuel : nat) (s : Client.t) (post : Post.t)
    : option Post.t :=
  match enrich fuel s post with
  | Some (_, inr post) => Some post
  | _ => None
  end.

Definition enrichError `{!Source} (fuel : nat) (s : Client.t) (post : Post.t)
    : option error :=
  match enrich fuel s post with
  | Some (_, inl err) => Some err
  | _ => None
  end.

(** The comment fetch of the post fails with [err], or its comments are
    not fetched or fetched well and the vote fetch fails with [err]. *)
Definition FetchFails `{!Source} (fuel : nat) (s : Client.t) (post : Post.t)
    (err : error) : Prop :=
  (0 < Post.CommentCount post
   ∧ (getComments fuel s (Post.ID post) []).1 = Some (inl err))
  ∨ ((Post.CommentCount post ≤ 0
      ∨ ∃ comments, (getComments fuel s (Post.ID post) []).1
                    = Some (inr comments))
     ∧ 0 < Post.VoteCount post
     ∧ (getVotes fuel s (Post.ID post) []).1 = Some (inl err)).

(** The resolved users of the records of a post. *)
Definition peopleOf (post : Post.t) : list User.t :=
  option_list (Post.Author post)
  ++ omap Comment.Author (Post.Comments post)
  ++ omap Vote.User (Post.UserVotes post).

(** A call to the destination that is made for a record of one of the
    posts: it carries the text of a post or of a comment of the list,
    or it votes on behalf of, or looks up, a user of the list. *)
Definition CallFor `{!Sanitizer} (posts : list Post.t)
    (call : string * canny.Request) : Prop :=
  match call.2 with
  | canny.createPostRequest _ p =>
    ∃ post, post ∈ posts
      ∧ canny.cp_Title p = sanitizeString (Post.Title post)
      ∧ canny.cp_Details p = sanitizeString (Post.Details post)
  | canny.createCommentRequest _ c =>
    ∃ post comment, post ∈ posts ∧ comment ∈ Post.Comments post
      ∧ canny.cc_Value c = sanitizeString (Comment.Body comment)
  | canny.createVoteRequest _ v =>
    ∃ post vote, post ∈ posts ∧ vote ∈ Post.UserVotes post
      ∧ Vote.User vote ≠ None
  | canny.findOrCreateUserRequest _ u =>
    ∃ post user, post ∈ posts ∧ user ∈ peopleOf post
      ∧ canny.fu_Email u = User.Email user
      ∧ canny.fu_Name u = User.Name user
      ∧ canny.fu_UserID u = User.ExternalID user
  end.

(** From [calls] to [calls'] the destination has only received calls
    made for records of the posts. *)
Definition Sends `{!Sanitizer} (posts : list Post.t)
    (calls calls' : canny.Calls) : Prop :=
  ∃ new, calls' = calls ++ new ∧ Forall (CallFor posts) new.


(** * A concrete source, destination and file format

    Small worlds on which the definitions above are run: a Zendesk
    server given by a table of URLs, Canny servers that number the
    records they create, and a textual format for the ledger. *)

Module Demo.

Definition user10 : User.t := User.mk 10 "2019-01-01" "Ann" "ann@example.com" "x10".
Definition user11 : User.t := User.mk 11 "2019-01-02" "Bob" "bob@example.com" "x11".

Definition comment5 : Comment.t := Comment.mk 5 "first" 10 None.
Definition comment6 : Comment.t := Comment.mk 6 "second" 12 None.
Definition vote7 : Vote.t := Vote.mk 7 11 None.
Definition vote8 : Vote.t := Vote.mk 8 12 None.

Definition post1 : Post.t := Post.mk 1 "Dark mode" "please" 10 0 1 [] [] None.
Definition post2 : Post.t := Post.mk 2 "Export" "as csv" 11 2 0 [] [] None.
Definition post3 : Post.t := Post.mk 3 "Broken" "comments" 10 0 1 [] [] None.
Definition post4 : Post.t := Post.mk 4 "Orphan" "no author" 12 0 0 [] [] None.

(** The server: the body served at each URL; any other URL is answered
    with status 404. *)
Definition pages : list (string * string) :=
  [ ("z/api/v2/community/topics/t1/posts.json?sort_by=created_at", "posts-t1");
    ("z/api/v2/community/posts/1/comments.json?sort_by=created_at", "comments-1a");
    ("z/comments-1b", "comments-1b");
    ("z/api/v2/community/posts/2/votes.json?sort_by=created_at", "votes-2");
    ("z/api/v2/users/show_many.json?ids=10,12,11", "users");
    ("z/api/v2/community/topics/t2/posts.json?sort_by=created_at", "posts-t2");
    ("z/api/v2/users/show_many.json?ids=12,10", "users");
    ("z/api/v2/users/show_many.json?ids=10", "users");
    ("z/api/v2/users/show_many.json?ids=12", "users");
    ("z/api/v2/users/show_many.json?ids=12,11", "users");
    ("z/api/v2/users/show_many.json?ids=", "users");
    ("z/api/v2/community/topics/t3/posts.json?sort_by=created_at", "posts-t3a");
    ("z/posts-t3b", "posts-t3b");
    ("z/api/v2/community/topics/t4/posts.json?sort_by=created_at", "posts-t4") ].

Fixpoint assoc {A} (key : string) (table : list (string * A)) : option A :=
  match table with
  | [] => None
  | (k, v) :: table => if String.eqb key k then Some v else assoc key table
  end.

Definition serve (url : string) : error + Http.Response :=
  match assoc url pages with
  | Some body => inr (Http.mk 200 (inr body))
  | None => inr (Http.mk 404 (inr "not found"))
  end.

Definition decode {A} (table : list (string * A)) (body : string) : error + A :=
  match assoc body table with
  | Some v => inr v
  | None => inl (JsonError body)
  end.

Definition source : Source := {|
  zDo := serve;
  unmarshalPosts := decode
    [ ("posts-t1", {| pr_Posts := Some [post1; post2]; pr_NextPage := "" |});
      ("posts-t2", {| pr_Posts := Some [post4; post3; post1]; pr_NextPage := "" |});
      ("posts-t3a", {| pr_Posts := Some [post4]; pr_NextPage := "z/posts-t3b" |});
      ("posts-t3b", {| pr_Posts := None; pr_NextPage := "z/posts-t3c" |});
      ("posts-t4", {| pr_Posts := Some [post4; post2]; pr_NextPage := "" |}) ];
  unmarshalComments := decode
    [ ("comments-1a", {| cr_Comments := Some [comment5]; cr_NextPage := "z/comments-1b" |});
      ("comments-1b", {| cr_Comments := Some [comment6]; cr_NextPage := "" |}) ];
  unmarshalVotes := decode
    [ ("votes-2", {| vr_Votes := Some [vote7; vote8]; vr_NextPage := "" |}) ];
  unmarshalUsers := decode
    [ ("users", {| ur_Users := Some [user10; user11]; ur_NextPage := "" |}) ] |}.

Definition zclient : Client.t := Client.mk "admin" "secret" "z" ∅.

(** A destination that accepts everything: the record created by the
    n-th call gets the id ["c" n], a vote is acknowledged. *)
Definition accepting : canny.Destination := {|
  canny.cDo := λ calls url req,
    match req with
    | canny.createVoteRequest _ _ => inr (Http.mk 200 (inr "success"))
    | _ => inr (Http.mk 200 (inr ("c" +:+ pretty (length calls))))
    end;
  canny.unmarshalID := λ body, inr body |}.

(** A destination that accepts everything but answers a creation with a
    body whose [id] is empty. *)
Definition anonymous : canny.Destination := {|
  canny.cDo := λ calls url req,
    match req with
    | canny.createVoteRequest _ _ => inr (Http.mk 200 (inr "success"))
    | _ => inr (Http.mk 200 (inr "{}"))
    end;
  canny.unmarshalID := λ body, inr "" |}.

(** A destination that is down: every call is answered with status 500. *)
Definition unavailable : canny.Destination := {|
  canny.cDo := λ calls url req, inr (Http.mk 500 (inr "down"));
  canny.unmarshalID := λ body, inr body |}.

Definition cclient : canny.Client.t := canny.Client.mk "key" "c".

Definition sanitizer : Sanitizer := {| sanitizeHTML := λ s, s |}.

(** The ledger as text: an object of objects of strings, without escape
    sequences. *)
Definition quote : string := String (Ascii.ascii_of_nat 34) "".

Definition quoted (s : string) : string := quote +:+ s +:+ quote.

Fixpoint joined (sep : string) (parts : list string) : string :=
  match parts with
  | [] => ""
  | [part] => part
  | part :: parts => part +:+ sep +:+ joined sep parts
  end.

Definition render (st : Ledger) : string :=
  "{" +:+ joined ","
    (map (λ '(topic, entries),
       quoted topic +:+ ":{" +:+ joined ","
         (map (λ '(key, id), quoted key +:+ ":" +:+ quoted id)
              (map_to_list entries)) +:+ "}")
       (map_to_list st)) +:+ "}".

Inductive Mode : Type :=
  | Outside | InTopic | AfterTopic | Inside | InKey | AfterKey | InValue.

Record Parser : Type := {
  mode : Mode; buf : string; topic : string; key : string;
  entries : gmap string string; ledger : Ledger }.

Definition feed (p : Parser) (c : Ascii.ascii) : Parser :=
  let is_quote := Ascii.eqb c (Ascii.ascii_of_nat 34) in
  let grow := buf p +:+ String c "" in
  match mode p with
  | Outside =>
    if is_quote then Build_Parser InTopic "" (topic p) (key p) (entries p) (ledger p)
    else p
  | InTopic =>
    if is_quote then Build_Parser AfterTopic "" (buf p) (key p) (entries p) (ledger p)
    else Build_Parser InTopic grow (topic p) (key p) (entries p) (ledger p)
  | AfterTopic =>
    if Ascii.eqb c (Ascii.ascii_of_nat 123)
    then Build_Parser Inside "" (topic p) (key p) ∅ (ledger p)
    else p
  | Inside =>
    if is_quote then Build_Parser InKey "" (topic p) (key p) (entries p) (ledger p)
    else if Ascii.eqb c (Ascii.ascii_of_nat 125)
    then Build_Parser Outside "" (topic p) (key p) ∅
                      (<[topic p := entries p]> (ledger p))
    else p
  | InKey =>
    if is_quote then Build_Parser AfterKey "" (topic p) (buf p) (entries p) (ledger p)
    else Build_Parser InKey grow (topic p) (key p) (entries p) (ledger p)
  | AfterKey =>
    if is_quote then Build_Parser InValue "" (topic p) (key p) (entries p) (ledger p)
    else p
  | InValue =>
    if is_quote
    then Build_Parser Inside "" (topic p) (key p)
                      (<[key p := buf p]> (entries p)) (ledger p)
    else Build_Parser InValue grow (topic p) (key p) (entries p) (ledger p)
  end.

Definition parse (raw : string) : error + Ledger :=
  let p := foldl feed (Build_Parser Outside "" "" "" ∅ ∅) (String.list_ascii_of_string raw) in
  match mode p with
  | Outside => inr (ledger p)
  | _ => inl (JsonError raw)
  end.

Definition json : StateJSON := {|
  MarshalIndent := λ st, inr (render st);
  Unmarshal := λ raw dst,
    match parse raw with
    | inl err => inl err
    | inr st => inr (st ∪ dst)
    end |}.

(** The tool as [main] sets it up: no agent mapping, an empty cache, the
    state on [state.json]. *)
Definition migration (topics : list (string * string)) (defaultUser : string)
    : Migration.t :=
  Migration.mk zclient cclient topics false defaultUser 10 "state.json" ∅ ∅.

End Demo.
(** * Properties *)

(** ** Paginated fetching *)

Section pagination.
Context `{!Source, !canny.Destination, !StateJSON, !Sanitizer}.

Lemma get_fetch {A} (unmarshal : string → error + A) url net :
  get unmarshal url net = (fetch unmarshal url, net ++ [url]).
Proof.
  unfold fetch, get. destruct (zDo url) as [e|resp]; [done|].
  destruct (Http.Body resp); [done|].
  case_decide; [done|]. by destruct (unmarshal _).
Qed.


(** One page of a chain, for each of the paginated loops: the page is
    fetched and appended, and the loop ends or goes on with the cursor. *)
Ltac page_loop_chain Hchain :=
  let IH := fresh "IH" in
  induction Hchain as [? ? ? Hf Hi Hn|? ? ? ? Hf Hi Hn _ IH];
  intros [|?] ? ? ? Hlen; simpl in Hlen; try lia;
  simpl; rewrite get_fetch, Hf, Hi;
  rewrite decide_False by (intros [? _]; done);
  [ rewrite decide_True by done; simpl; by rewrite app_nil_r
  | rewrite decide_False by done; rewrite IH by lia; simpl;
    by rewrite <-(assoc_L (++)) ].

Lemma getComments_loop_chain pages : ∀ fuel postID url page acc net,
  PageChain unmarshalComments cr_Comments cr_NextPage url pages →
  (length pages ≤ fuel)%nat →
  (getComments_loop fuel postID url page acc net).1
  = Some (inr (acc ++ concat pages)).
Proof.
  intros fuel postID url page acc net Hchain. revert fuel page acc net.
  page_loop_chain Hchain.
Qed.

Lemma getVotes_loop_chain pages : ∀ fuel postID url page acc net,
  PageChain unmarshalVotes vr_Votes vr_NextPage url pages →
  (length pages ≤ fuel)%nat →
  (getVotes_loop fuel postID url page acc net).1
  = Some (inr (acc ++ concat pages)).
Proof.
  intros fuel postID url page acc net Hchain. revert fuel page acc net.
  page_loop_chain Hchain.
Qed.

(** C4. Given N pages chained by their cursors, the last cursor being
    empty, the comment fetcher and the vote fetcher return, with any
    fuel of at least N, exactly the concatenation of the N item arrays
    in page order. *)
Theorem paginated_fetch_concatenates (fuel : nat) (s : Client.t) (postID : Z)
    (net : Net) :
  (∀ pages,
     PageChain unmarshalComments cr_Comments cr_NextPage
               (commentsURL (Client.BaseURL s) postID) pages →
     (length pages ≤ fuel)%nat →
     (getComments fuel s postID net).1 = Some (inr (concat pages)))
  ∧ (∀ pages,
     PageChain unmarshalVotes vr_Votes vr_NextPage
               (votesURL (Client.BaseURL s) postID) pages →
     (length pages ≤ fuel)%nat →
     (getVotes fuel s postID net).1 = Some (inr (concat pages))).
Proof.
  split; intros pages Hchain Hlen.
  - unfold getComments. by rewrite (getComments_loop_chain pages).
  - unfold getVotes. by rewrite (getVotes_loop_chain pages).
Qed.








End pagination.

(** Two pages of comments for post 1 and one page of votes for post 2. *)
Lemma paginated_fetch_concatenates_witness :
  (@getComments Demo.source 5 Demo.zclient 1 []).1
    = Some (inr [Demo.comment5; Demo.comment6])
  ∧ (@getVotes Demo.source 5 Demo.zclient 2 []).1
    = Some (inr [Demo.vote7; Demo.vote8]).
Proof.
  split.
  - apply (proj1 (@paginated_fetch_concatenates Demo.source 5 Demo.zclient 1 [])
             [[Demo.comment5]; [Demo.comment6]]).
    + eapply (@PageChain_next Demo.source); [reflexivity..|done|].
      eapply (@PageChain_last Demo.source); reflexivity.
    + simpl; lia.
  - apply (proj2 (@paginated_fetch_concatenates Demo.source 5 Demo.zclient 2 [])
             [[Demo.vote7; Demo.vote8]]).
    + eapply (@PageChain_last Demo.source); reflexivity.
    + simpl; lia.
Defined.


(** ** User loading *)

Section users.
Context `{!Source}.

Lemma collectUsers_spec usersCh : ∀ users acc,
  ∃ new,
    (collectUsers usersCh users acc).2 = acc ++ new
    ∧ NoDup new
    ∧ (∀ id, id ∈ new ↔ id ∈ usersCh ∧ users !! id = None)
    ∧ (∀ id, (collectUsers usersCh users acc).1 !! id
             = if decide (id ∈ new) then Some None else users !! id).
Proof.
  induction usersCh as [|userID usersCh IH]; intros users acc; simpl.
  - exists []. rewrite app_nil_r. split_and!; [done|constructor|set_solver|].
    intros id. by rewrite decide_False by set_solver.
  - destruct (users !! userID) as [u|] eqn:Hu.
    + destruct (IH users acc) as (new & Hacc & Hnd & Hin & Hlk).
      exists new. split_and!; [done..| |done].
      intros id. rewrite Hin. set_solver.
    + destruct (IH (<[userID:=None]> users) (acc ++ [userID]))
        as (new & Hacc & Hnd & Hin & Hlk).
      exists (userID :: new). split_and!.
      * by rewrite Hacc, <-(assoc_L (++)).
      * constructor; [|done]. rewrite Hin, lookup_insert_eq. naive_solver.
      * intros id. rewrite elem_of_cons, Hin, elem_of_cons.
        destruct (decide (id = userID)) as [->|Hne]; [naive_solver|].
        rewrite lookup_insert_ne by done. naive_solver.
      * intros id. rewrite Hlk.
        destruct (decide (id = userID)) as [->|Hne].
        -- rewrite lookup_insert_eq. rewrite (decide_True (P := _ ∈ _ :: _)) by set_solver.
           by case_decide.
        -- rewrite lookup_insert_ne by done.
           repeat case_decide; set_solver.
Qed.

Lemma storeUsers_keeps loaded : ∀ users id,
  is_Some (users !! id) → is_Some (storeUsers users loaded !! id).
Proof.
  unfold storeUsers.
  induction loaded as [|u loaded IH]; intros users id Hid; simpl; [done|].
  apply IH. destruct (decide (User.ID u = id)) as [->|Hne].
  - rewrite lookup_insert_eq. eauto.
  - by rewrite lookup_insert_ne.
Qed.

Lemma loadBatches_keeps batches : ∀ s net id,
  is_Some (Client.Users s !! id) →
  is_Some (Client.Users (loadBatches s batches net).1.2 !! id).
Proof.
  induction batches as [|batch batches IH]; intros s net id Hid; simpl; [done|].
  destruct (get _ _ _) as [[err|response] net']; simpl; [done|].
  apply IH. simpl. by apply storeUsers_keeps.
Qed.

Lemma loadBatches_requests batches : ∀ s net s' net',
  loadBatches s batches net = (None, s', net') →
  net' = net ++ map (usersURL (Client.BaseURL s)) batches.
Proof.
  induction batches as [|batch batches IH]; intros s net s' net' Hrun;
    simpl in *.
  - injection Hrun as _ <-. by rewrite app_nil_r.
  - rewrite get_fetch in Hrun.
    destruct (fetch _ _) as [err|response]; [done|].
    apply IH in Hrun. simpl in Hrun. by rewrite Hrun, <-(assoc_L (++)).
Qed.

Lemma GetPosts_client fuel s topic parallel net g net1 :
  gatherPosts fuel s topic parallel net = (Some g, net1) →
  (∀ id, id ∈ Gathered.usersToLoad g → Client.Users s !! id = None)
  ∧ NoDup (Gathered.usersToLoad g)
  ∧ ∀ posts errs fatal s' net',
      GetPosts fuel s topic parallel net = (Some (posts, errs, fatal, s'), net') →
      ∀ id, is_Some (Client.Users s !! id) ∨ id ∈ Gathered.usersToLoad g →
            is_Some (Client.Users s' !! id).
Proof.
  intros Hg. unfold GetPosts. rewrite Hg.
  unfold gatherPosts in Hg. case_decide; [done|].
  destruct (getPosts_loop _ _ _ _ _) as [[[sent fatalError]|] net2]; [|done].
  case_decide; [done|].
  destruct (detailsLoader _ _ _ _) as [[[[ps us] es]|] net3]; [|done].
  destruct (collectUsers_spec us (Client.Users s) [])
    as (new & Hacc & Hnd & Hin & Hlk).
  destruct (collectUsers _ _ _) as [users toLoad]. simpl in *. subst toLoad.
  injection Hg as <- <-. simpl. split_and!.
  - intros id. rewrite Hin. naive_solver.
  - done.
  - intros posts errs fatal s' net' Hrun id Hid.
    assert (is_Some (users !! id)) as Hmarked.
    { rewrite Hlk. case_decide; [eauto|]. by destruct Hid. }
    unfold loadUsers in Hrun.
    pose proof (loadBatches_keeps (splitBatches new)
                  (Client.withUsers s users) net3 id Hmarked) as Hkeep.
    destruct (loadBatches _ _ _) as [[[err|] s2] net4]; simpl in *;
      by injection Hrun as <- <- <- <- <-.
Qed.

Lemma LoaderRun_fresh users inputs :
  LoaderRun users inputs →
  ∀ id, id ∈ concat inputs → users !! id = None.
Proof.
  induction 1 as [users|users usersCh users' inputs Hkeep _ IH]; intros id;
    simpl; [set_solver|].
  destruct (collectUsers_spec usersCh users []) as (new & Hnew & _ & Hin & Hlk).
  simpl in Hnew. rewrite Hnew, elem_of_app. intros [Hid|Hid].
  - by apply Hin.
  - apply IH in Hid. destruct (users !! id) eqn:Hcached; [|done].
    destruct (Hkeep id) as [? Hsome]; [|congruence].
    rewrite Hlk. case_decide; [eauto|]. by rewrite Hcached.
Qed.

Lemma LoaderRun_NoDup users inputs :
  LoaderRun users inputs → NoDup (concat inputs).
Proof.
  induction 1 as [users|users usersCh users' inputs Hkeep Hrun IH]; simpl;
    [constructor|].
  destruct (collectUsers_spec usersCh users []) as (new & Hnew & Hnd & Hin & Hlk).
  simpl in Hnew. rewrite Hnew. apply NoDup_app. split_and!; [done| |done].
  intros id Hid Hlater. apply (LoaderRun_fresh _ _ Hrun) in Hlater.
  destruct (Hkeep id) as [? Hsome]; [|congruence].
  rewrite Hlk. rewrite decide_True by done. eauto.
Qed.

Lemma batchLoaderInputs_run fuel topics parallel : ∀ s net,
  LoaderRun (Client.Users s) (batchLoaderInputs fuel s topics parallel net).
Proof.
  induction topics as [|topic topics IH]; intros s net; simpl; [constructor|].
  destruct (gatherPosts _ _ _ _ _) as [[g|] net1] eqn:Hg; [|constructor].
  destruct (GetPosts_client _ _ _ _ _ _ _ Hg) as (_ & _ & Hkeep).
  unfold gatherPosts in Hg. case_decide; [done|].
  destruct (getPosts_loop _ _ _ _ _) as [[[sent fatalError]|] net2]; [|done].
  case_decide; [done|].
  destruct (detailsLoader _ _ _ _) as [[[[ps us] es]|] net3]; [|done].
  destruct (collectUsers_spec us (Client.Users s) [])
    as (new & Hacc & Hnd & Hin & Hlk).
  destruct (collectUsers us (Client.Users s) []) as [users toLoad] eqn:Hcollect.
  injection Hg as <- <-. simpl in *. subst toLoad.
  replace new with (collectUsers us (Client.Users s) []).2
    by by rewrite Hcollect.
  destruct (GetPosts _ _ _ _ _) as [[[[[posts errs] fatal] s']|] net'].
  - apply (LoaderRun_topic _ _ (Client.Users s')); [|apply IH].
    intros id Hid. apply (Hkeep _ _ _ _ _ eq_refl).
    rewrite Hcollect in Hid. simpl in Hid. rewrite Hlk in Hid.
    case_decide; [by right|by left].
  - apply (LoaderRun_topic _ _ (collectUsers us (Client.Users s) []).1);
      [done|constructor].
Qed.

(** C7. The reader of the user-id stream, fed any sequence of ids and
    any cache, builds a duplicate-free list of exactly the ids that were
    not yet keys of the cache and marks each of them with [nil]. Hence,
    whatever the workers' schedule, no id is handed to the batch loader
    twice over the topics of a run; in particular not in the lists that
    the successive calls of [GetPosts] hand to [loadUsers]. *)
Theorem batch_loader_ids_at_most_once :
  (∀ (usersCh : list Z) (users : gmap Z (option User.t)),
     NoDup (collectUsers usersCh users []).2
     ∧ (∀ id, id ∈ (collectUsers usersCh users []).2
              ↔ id ∈ usersCh ∧ users !! id = None)
     ∧ (∀ id, id ∈ (collectUsers usersCh users []).2 →
              (collectUsers usersCh users []).1 !! id = Some None))
  ∧ (∀ users inputs, LoaderRun users inputs → NoDup (concat inputs))
  ∧ (∀ (fuel : nat) (s : Client.t) (topics : list string) (parallel : Z)
       (net : Net),
     LoaderRun (Client.Users s) (batchLoaderInputs fuel s topics parallel net)
     ∧ NoDup (concat (batchLoaderInputs fuel s topics parallel net))).
Proof.
  split_and!.
  - intros usersCh users.
    destruct (collectUsers_spec usersCh users []) as (new & -> & Hnd & Hin & Hlk).
    simpl. split_and!; [done..|].
    intros id Hid. rewrite Hlk. by rewrite decide_True.
  - apply LoaderRun_NoDup.
  - intros fuel s topics parallel net.
    pose proof (batchLoaderInputs_run fuel topics parallel s net) as Hrun.
    split; [done|]. by eapply LoaderRun_NoDup.
Qed.

Lemma splitBatches_loop_length n : ∀ ids batches,
  (length ids ≤ n)%nat →
  length (splitBatches_loop n ids batches)
  = (length batches + Nat.max 1 ((length ids + 99) / 100))%nat.
Proof.
  unfold batchSize.
  induction n as [|n IH]; intros ids batches Hn; cbn [splitBatches_loop].
  - destruct ids; [|simpl in Hn; lia]. rewrite length_app. done.
  - case_decide as Hlong; unfold batchSize in *.
    + rewrite IH by (rewrite length_drop; lia).
      rewrite length_app, length_drop. cbn [length].
      assert ((length ids + 99) / 100 = S ((length ids - 100 + 99) / 100))%nat
        as ->.
      { replace (length ids + 99)%nat
          with (length ids - 100 + 99 + 1 * 100)%nat by lia.
        rewrite Nat.div_add by lia. lia. }
      assert (1 ≤ (length ids - 100 + 99) / 100)%nat.
      { apply (Nat.div_le_lower_bound _ 100 1); lia. }
      lia.
    + rewrite length_app. cbn [length].
      assert ((length ids + 99) / 100 < 2)%nat.
      { apply Nat.Div0.div_lt_upper_bound; lia. }
      lia.
Qed.

Lemma splitBatches_loop_concat n : ∀ ids batches,
  concat (splitBatches_loop n ids batches) = concat batches ++ ids.
Proof.
  induction n as [|n IH]; intros ids batches; simpl.
  - by rewrite concat_app; simpl; rewrite app_nil_r.
  - case_decide.
    + rewrite IH, concat_app. simpl.
      by rewrite app_nil_r, <-(assoc_L (++)), take_drop.
    + by rewrite concat_app; simpl; rewrite app_nil_r.
Qed.

(** For a non-empty list the loader forms [ceil(n/100)] batches that
    together are the list; when every request succeeds it issues one
    request per batch, in order. *)
Lemma loadUsers_batches s ids net s' net' :
  ids ≠ [] →
  loadUsers s ids net = (None, s', net') →
  length (splitBatches ids) = ((length ids + 99) / 100)%nat
  ∧ concat (splitBatches ids) = ids
  ∧ net' = net ++ map (usersURL (Client.BaseURL s)) (splitBatches ids).
Proof.
  intros Hne Hrun. unfold splitBatches. split_and!.
  - rewrite splitBatches_loop_length by done. cbn [length].
    assert (1 ≤ length ids)%nat by (destruct ids; [done|simpl; lia]).
    assert (1 ≤ (length ids + 99) / 100)%nat; [|lia].
    apply (Nat.div_le_lower_bound _ 100 1); lia.
  - by rewrite splitBatches_loop_concat.
  - by eapply loadBatches_requests.
Qed.

(** C6, at the empty list: no id is pending, [ceil(0/100)] is 0, and
    the loader still forms one (empty) batch and issues one request,
    for the URL whose [ids] parameter is empty. *)
Theorem loadUsers_empty_issues_a_request (s : Client.t) (net : Net) :
  ((length (@nil Z) + 99) / 100 = 0)%nat
  ∧ splitBatches [] = [[]]
  ∧ (loadUsers s [] net).2
    = net ++ [Client.BaseURL s +:+ "/api/v2/users/show_many.json?ids="].
Proof.
  split_and!; [done..|].
  unfold loadUsers. simpl. rewrite get_fetch.
  by destruct (fetch _ _).
Qed.

End users.

(** ** The migration state machine *)

Section destination.
Context `{!canny.Destination}.

Lemma post_calls {A} (dst : string → error + A) url src calls :
  (canny.Client.post dst url src calls).2 = calls ++ [(url, src)].
Proof.
  unfold canny.Client.post. destruct (canny.cDo _ _ _); [done|].
  destruct (Http.Body _); [done|]. by case_decide.
Qed.

End destination.

(** The outcome of the [post] in the goal, with the fact that its call
    is appended to the log. *)
Ltac post_outcome Hcalls pat :=
  match goal with
  | |- context [canny.Client.post ?d ?u ?r ?c] =>
    pose proof (post_calls d u r c) as Hcalls;
    destruct (canny.Client.post d u r c) as pat
  end.

Section ledger.
Context `{!Source, !canny.Destination, !StateJSON, !Sanitizer}.

Lemma getIDFromState_entry s zTopic objType id :
  getIDFromState s zTopic objType id
  = default "" (entry (Migration.state s) zTopic (formatKey objType id)).
Proof.
  unfold getIDFromState, entry. by destruct (Migration.state s !! zTopic).
Qed.

Lemma entry_saveIDToState s zTopic objType id cannyID zTopic' key :
  entry (Migration.state (saveIDToState s zTopic objType id cannyID)) zTopic' key
  = if decide (zTopic' = zTopic ∧ key = formatKey objType id)
    then Some cannyID
    else entry (Migration.state s) zTopic' key.
Proof.
  unfold saveIDToState, entry. simpl.
  destruct (decide (zTopic' = zTopic)) as [->|Hne].
  - rewrite lookup_insert_eq. simpl.
    destruct (decide (key = formatKey objType id)) as [->|Hk].
    + rewrite lookup_insert_eq. by rewrite decide_True.
    + rewrite lookup_insert_ne by done.
      rewrite decide_False by naive_solver.
      by destruct (Migration.state s !! zTopic).
  - rewrite lookup_insert_ne by done. by rewrite decide_False by naive_solver.
Qed.

Lemma Keeps_refl st : Keeps st st.
Proof. intros zTopic key id Hid. by rewrite Hid; eauto. Qed.

Lemma Keeps_trans st1 st2 st3 : Keeps st1 st2 → Keeps st2 st3 → Keeps st1 st3.
Proof.
  intros H12 H23 zTopic key id Hid.
  destruct (H12 _ _ _ Hid) as [[id2 Hid2] Hsame].
  destruct (H23 _ _ _ Hid2) as [Hsome Hsame2]. split; [done|].
  intros Hne. specialize (Hsame Hne). rewrite Hsame in Hid2.
  injection Hid2 as <-. by apply Hsame2.
Qed.

(** Writing an entry whose lookup gave the empty string keeps the
    ledger's commitments. *)
Lemma Keeps_saveIDToState s zTopic objType id cannyID :
  getIDFromState s zTopic objType id = "" →
  Keeps (Migration.state s)
        (Migration.state (saveIDToState s zTopic objType id cannyID)).
Proof.
  intros Hfree zTopic' key id' Hid'. rewrite entry_saveIDToState.
  case_decide as Hkey; [|by rewrite Hid'; eauto].
  destruct Hkey as [-> ->]. split; [eauto|]. intros Hne.
  rewrite getIDFromState_entry, Hid' in Hfree. done.
Qed.

Lemma KeepsUsers_refl um : KeepsUsers um um.
Proof. by intros id userID. Qed.

Lemma Advances_refl s calls : Advances s calls s calls.
Proof.
  split; [done..|apply Keeps_refl|apply KeepsUsers_refl|].
  exists []. by rewrite app_nil_r.
Qed.

Lemma Advances_trans s1 c1 s2 c2 s3 c3 :
  Advances s1 c1 s2 c2 → Advances s2 c2 s3 c3 → Advances s1 c1 s3 c3.
Proof.
  intros [] []. split; [congruence..| | |].
  - by eapply Keeps_trans.
  - intros id userID Hid Hne. eauto.
  - destruct adv_calls0 as [new1 ->], adv_calls1 as [new2 ->].
    exists (new1 ++ new2). by rewrite (assoc_L (++)).
Qed.

Lemma Advances_saveIDToState s calls zTopic objType id cannyID :
  getIDFromState s zTopic objType id = "" →
  Advances s calls (saveIDToState s zTopic objType id cannyID) calls.
Proof.
  intros Hfree. split; [done..| |apply KeepsUsers_refl|].
  - by apply Keeps_saveIDToState.
  - exists []. by rewrite app_nil_r.
Qed.

Lemma findOrCreateUser_known s user calls userID :
  Migration.UserMapping s !! User.ID user = Some userID → userID ≠ "" →
  findOrCreateUser s user calls = (inr userID, s, calls).
Proof.
  intros Hid Hne. unfold findOrCreateUser. rewrite Hid. simpl.
  by rewrite decide_True.
Qed.

Lemma findOrCreateUser_unknown s user calls :
  default "" (Migration.UserMapping s !! User.ID user) = "" →
  let request :=
    (canny.Client.BaseURL (Migration.CClient s) +:+ "/api/v1/users/find_or_create",
     canny.findOrCreateUserRequest (canny.Client.APIKey (Migration.CClient s))
       {| canny.fu_Created := User.CreatedAt user;
          canny.fu_Email := User.Email user;
          canny.fu_Name := User.Name user;
          canny.fu_UserID := User.ExternalID user |}) in
  (findOrCreateUser s user calls).2 = calls ++ [request]
  ∧ match (findOrCreateUser s user calls).1.1 with
    | inl _ => (findOrCreateUser s user calls).1.2 = s
    | inr userID =>
      (findOrCreateUser s user calls).1.2
      = Migration.withUserMapping s
          (<[User.ID user := userID]> (Migration.UserMapping s))
    end.
Proof.
  intros Hun. unfold findOrCreateUser. rewrite Hun. simpl.
  unfold canny.Client.FindOrCreateUser.
  pose proof (post_calls canny.Client.intoResponse
    (canny.Client.BaseURL (Migration.CClient s) +:+ "/api/v1/users/find_or_create")
    (canny.findOrCreateUserRequest (canny.Client.APIKey (Migration.CClient s))
       {| canny.fu_Created := User.CreatedAt user;
          canny.fu_Email := User.Email user;
          canny.fu_Name := User.Name user;
          canny.fu_UserID := User.ExternalID user |}) calls) as Hcalls.
  destruct (canny.Client.post _ _ _ _) as [[err|userID] calls'];
    simpl in *; by subst.
Qed.

Lemma Advances_findOrCreateUser s user calls res s' calls' :
  findOrCreateUser s user calls = (res, s', calls') →
  Advances s calls s' calls'.
Proof.
  unfold findOrCreateUser. case_decide as Hknown.
  - intros [= <- <- <-]. apply Advances_refl.
  - unfold canny.Client.FindOrCreateUser.
    post_outcome Hcalls ipattern:([[err|userID] calls1]);
      simpl in Hcalls; subst calls1; intros [= <- <- <-].
    + split; [done..|apply Keeps_refl|apply KeepsUsers_refl|eauto].
    + split; [done..|apply Keeps_refl| |eauto].
      intros id uid Hid Hne. simpl.
      destruct (decide (User.ID user = id)) as [<-|Hother].
      * rewrite Hid in Hknown. simpl in Hknown. by destruct Hknown.
      * by rewrite lookup_insert_ne.
Qed.

Lemma Advances_resolveUser s user objType calls res s' calls' :
  resolveUser s user objType calls = (res, s', calls') →
  Advances s calls s' calls'.
Proof.
  unfold resolveUser. destruct user as [user|].
  - apply Advances_findOrCreateUser.
  - case_decide; intros [= <- <- <-]; apply Advances_refl.
Qed.

Lemma Advances_createPost s post cBoard calls res s' calls' :
  createPost s post cBoard calls = (res, s', calls') →
  Advances s calls s' calls'.
Proof.
  unfold createPost.
  destruct (resolveUser _ _ _ _) as [[[err|userID] s1] calls1] eqn:Hres;
    apply Advances_resolveUser in Hres.
  - by intros [= <- <- <-].
  - unfold canny.Client.CreatePost.
    post_outcome Hcalls ipattern:([res2 calls2]).
    simpl in Hcalls. subst calls2. intros [= <- <- <-].
    eapply Advances_trans; [done|].
    split; [done..|apply Keeps_refl|apply KeepsUsers_refl|eauto].
Qed.

Lemma Advances_createComment s comment postID calls res s' calls' :
  createComment s comment postID calls = (res, s', calls') →
  Advances s calls s' calls'.
Proof.
  unfold createComment.
  destruct (resolveUser _ _ _ _) as [[[err|userID] s1] calls1] eqn:Hres;
    apply Advances_resolveUser in Hres.
  - by intros [= <- <- <-].
  - unfold canny.Client.CreateComment.
    post_outcome Hcalls ipattern:([res2 calls2]).
    simpl in Hcalls. subst calls2. intros [= <- <- <-].
    eapply Advances_trans; [done|].
    split; [done..|apply Keeps_refl|apply KeepsUsers_refl|eauto].
Qed.

Lemma Advances_createVote s vote postID calls res s' calls' :
  createVote s vote postID calls = (res, s', calls') →
  Advances s calls s' calls'.
Proof.
  unfold createVote.
  destruct (resolveUser _ _ _ _) as [[[err|userID] s1] calls1] eqn:Hres;
    apply Advances_resolveUser in Hres.
  - by intros [= <- <- <-].
  - unfold canny.Client.CreateVote.
    post_outcome Hcalls ipattern:([[err|resp] calls2]);
      simpl in Hcalls; subst calls2.
    + intros [= <- <- <-]. eapply Advances_trans; [done|].
      split; [done..|apply Keeps_refl|apply KeepsUsers_refl|eauto].
    + case_decide; intros [= <- <- <-]; (eapply Advances_trans; [done|]);
        (split; [done..|apply Keeps_refl|apply KeepsUsers_refl|eauto]).
Qed.

(** Only [saveIDToState] writes the ledger. *)
Lemma findOrCreateUser_state s user calls :
  Migration.state (findOrCreateUser s user calls).1.2 = Migration.state s.
Proof.
  unfold findOrCreateUser. case_decide; [done|].
  by destruct (canny.Client.FindOrCreateUser _ _ _) as [[err|userID] calls'].
Qed.

Lemma resolveUser_state s user objType calls :
  Migration.state (resolveUser s user objType calls).1.2 = Migration.state s.
Proof.
  unfold resolveUser. destruct user; [apply findOrCreateUser_state|].
  by case_decide.
Qed.

Lemma createPost_state s post cBoard calls :
  Migration.state (createPost s post cBoard calls).1.2 = Migration.state s.
Proof.
  unfold createPost.
  pose proof (resolveUser_state s (Post.Author post) "post" calls) as Hst.
  destruct (resolveUser _ _ _ _) as [[[err|userID] s1] calls1]; [done|].
  by destruct (canny.Client.CreatePost _ _ _).
Qed.

Lemma createComment_state s comment postID calls :
  Migration.state (createComment s comment postID calls).1.2 = Migration.state s.
Proof.
  unfold createComment.
  pose proof (resolveUser_state s (Comment.Author comment) "comment" calls) as Hst.
  destruct (resolveUser _ _ _ _) as [[[err|userID] s1] calls1]; [done|].
  by destruct (canny.Client.CreateComment _ _ _).
Qed.

Lemma createVote_state s vote postID calls :
  Migration.state (createVote s vote postID calls).1.2 = Migration.state s.
Proof.
  unfold createVote.
  pose proof (resolveUser_state s (Vote.User vote) "vote" calls) as Hst.
  destruct (resolveUser _ _ _ _) as [[[err|userID] s1] calls1]; [done|].
  by destruct (canny.Client.CreateVote _ _ _) as [[err|] calls2].
Qed.

Lemma getIDFromState_state s s' zTopic objType id :
  Migration.state s' = Migration.state s →
  getIDFromState s' zTopic objType id = getIDFromState s zTopic objType id.
Proof. unfold getIDFromState. by intros ->. Qed.

Lemma Advances_migrateComments comments zTopic postID :
  ∀ s calls res s' calls',
  migrateComments s comments zTopic postID calls = (res, s', calls') →
  Advances s calls s' calls'.
Proof.
  induction comments as [|comment comments IH]; intros s calls res s' calls';
    simpl.
  - intros [= <- <- <-]. apply Advances_refl.
  - case_decide as Hdone; [apply IH|].
    pose proof (createComment_state s comment postID calls) as Hst.
    destruct (createComment _ _ _ _) as [[[err|commentID] s1] calls1] eqn:Hc;
      apply Advances_createComment in Hc as Hadv.
    + by intros [= <- <- <-].
    + intros Hrest. apply IH in Hrest.
      eapply Advances_trans; [done|]. eapply Advances_trans; [|done].
      apply Advances_saveIDToState.
      rewrite (getIDFromState_state s) by done.
      by destruct (decide (getIDFromState s zTopic "comment" (Comment.ID comment) = "")).
Qed.

Lemma Advances_migrateVotes votes zTopic postID :
  ∀ s calls res s' calls',
  migrateVotes s votes zTopic postID calls = (res, s', calls') →
  Advances s calls s' calls'.
Proof.
  induction votes as [|vote votes IH]; intros s calls res s' calls'; simpl.
  - intros [= <- <- <-]. apply Advances_refl.
  - case_decide as Hdone; [apply IH|].
    pose proof (createVote_state s vote postID calls) as Hst.
    destruct (createVote _ _ _ _) as [[[err|voteSuccess] s1] calls1] eqn:Hc;
      apply Advances_createVote in Hc as Hadv.
    + by intros [= <- <- <-].
    + intros Hrest. apply IH in Hrest.
      eapply Advances_trans; [done|]. eapply Advances_trans; [|done].
      apply Advances_saveIDToState.
      rewrite (getIDFromState_state s) by done.
      destruct (decide (getIDFromState s zTopic "vote" (Vote.ID vote) = ""));
        [done|]. destruct Hdone. by left.
Qed.

Lemma Advances_migratePost s post zTopic cBoard calls res s' calls' :
  migratePost s post zTopic cBoard calls = (res, s', calls') →
  Advances s calls s' calls'.
Proof.
  unfold migratePost.
  set (created := if decide (getIDFromState s zTopic "post" (Post.ID post) = "")
                  then _ else _).
  assert (Advances s calls created.1.2 created.2) as Hcreated.
  { subst created. case_decide as Hfree; [|apply Advances_refl].
    pose proof (createPost_state s post cBoard calls) as Hst.
    destruct (createPost _ _ _ _) as [[[err|postID] s1] calls1] eqn:Hc;
      apply Advances_createPost in Hc as Hadv; simpl; [done|].
    eapply Advances_trans; [done|]. apply Advances_saveIDToState.
    by rewrite (getIDFromState_state s). }
  destruct created as [[[err|postID] s1] calls1]; simpl in Hcreated.
  - by intros [= <- <- <-].
  - destruct (migrateComments _ _ _ _ _) as [[[err|] s2] calls2] eqn:Hcs;
      apply Advances_migrateComments in Hcs.
    + intros [= <- <- <-]. by eapply Advances_trans.
    + intros Hvs. apply Advances_migrateVotes in Hvs.
      eapply Advances_trans; [done|]. by eapply Advances_trans.
Qed.

Lemma Advances_migratePosts posts zTopic cBoard :
  ∀ s calls success fail s' calls' success' fail',
  migratePosts s posts zTopic cBoard calls success fail
    = (s', calls', success', fail') →
  Advances s calls s' calls'.
Proof.
  induction posts as [|post posts IH];
    intros s calls success fail s' calls' success' fail'; simpl.
  - intros [= <- <- <- <-]. apply Advances_refl.
  - destruct (migratePost _ _ _ _ _) as [[[err|] s1] calls1] eqn:Hp;
      apply Advances_migratePost in Hp; intros Hrest; apply IH in Hrest;
      by eapply Advances_trans.
Qed.

End ledger.

Section state_machine.
Context `{!Source, !canny.Destination, !StateJSON, !Sanitizer}.

Lemma formatKey_inj objType id id' :
  formatKey objType id = formatKey objType id' → id = id'.
Proof.
  unfold formatKey. intros Heq.
  apply (inj (String.app objType)) in Heq.
  apply (inj (String.app "_")) in Heq. by apply (inj pretty).
Qed.

Lemma Touches_refl st zTopic keys : Touches st st zTopic keys.
Proof. intros zTopic' key. by right. Qed.

Lemma Touches_trans st1 st2 st3 zTopic keys :
  Touches st1 st2 zTopic keys → Touches st2 st3 zTopic keys →
  Touches st1 st3 zTopic keys.
Proof.
  intros H12 H23 zTopic' key.
  destruct (H12 zTopic' key) as [?|E12]; [by left|].
  destruct (H23 zTopic' key) as [?|E23]; [by left|]. right. congruence.
Qed.

Lemma Touches_weaken st st' zTopic keys keys' :
  Touches st st' zTopic keys → keys ⊆ keys' → Touches st st' zTopic keys'.
Proof.
  intros Ht Hsub zTopic' key.
  destruct (Ht zTopic' key) as [[-> Hin]|E]; [left|by right]. set_solver.
Qed.

Lemma Touches_saveIDToState s zTopic objType id cannyID :
  Touches (Migration.state s)
          (Migration.state (saveIDToState s zTopic objType id cannyID))
          zTopic [formatKey objType id].
Proof.
  intros zTopic' key. rewrite entry_saveIDToState.
  case_decide as Hkey; [left|by right]. destruct Hkey as [-> ->]. set_solver.
Qed.

Lemma Touches_migrateComments comments zTopic postID : ∀ s calls,
  Touches (Migration.state s)
    (Migration.state (migrateComments s comments zTopic postID calls).1.2)
    zTopic
    (map (λ comment, formatKey "comment" (Comment.ID comment)) comments).
Proof.
  induction comments as [|comment comments IH]; intros s calls; simpl.
  - apply Touches_refl.
  - case_decide as Hdone.
    + eapply Touches_weaken; [apply IH|set_solver].
    + pose proof (createComment_state s comment postID calls) as Hst.
      destruct (createComment _ _ _ _) as [[[err|commentID] s1] calls1];
        simpl in *.
      * rewrite Hst. apply Touches_refl.
      * apply (Touches_trans _ (Migration.state
                 (saveIDToState s1 zTopic "comment" (Comment.ID comment) commentID))).
        -- rewrite <-Hst.
           eapply Touches_weaken; [apply Touches_saveIDToState|set_solver].
        -- eapply Touches_weaken; [apply IH|set_solver].
Qed.

Lemma Touches_migrateVotes votes zTopic postID : ∀ s calls,
  Touches (Migration.state s)
    (Migration.state (migrateVotes s votes zTopic postID calls).1.2)
    zTopic
    (map (λ vote, formatKey "vote" (Vote.ID vote)) votes).
Proof.
  induction votes as [|vote votes IH]; intros s calls; simpl.
  - apply Touches_refl.
  - case_decide as Hdone.
    + eapply Touches_weaken; [apply IH|set_solver].
    + pose proof (createVote_state s vote postID calls) as Hst.
      destruct (createVote _ _ _ _) as [[[err|voteSuccess] s1] calls1];
        simpl in *.
      * rewrite Hst. apply Touches_refl.
      * apply (Touches_trans _ (Migration.state
                 (saveIDToState s1 zTopic "vote" (Vote.ID vote) voteSuccess))).
        -- rewrite <-Hst.
           eapply Touches_weaken; [apply Touches_saveIDToState|set_solver].
        -- eapply Touches_weaken; [apply IH|set_solver].
Qed.

Lemma Touches_migratePost s post zTopic cBoard calls :
  Touches (Migration.state s)
    (Migration.state (migratePost s post zTopic cBoard calls).1.2)
    zTopic (postKeys post).
Proof.
  unfold migratePost, postKeys.
  set (created := if decide (getIDFromState s zTopic "post" (Post.ID post) = "")
                  then _ else _).
  assert (Touches (Migration.state s) (Migration.state created.1.2) zTopic
            [formatKey "post" (Post.ID post)]) as Hcreated.
  { subst created. case_decide as Hfree; [|apply Touches_refl].
    pose proof (createPost_state s post cBoard calls) as Hst.
    destruct (createPost _ _ _ _) as [[[err|postID] s1] calls1]; simpl in *.
    - rewrite Hst. apply Touches_refl.
    - rewrite <-Hst. apply Touches_saveIDToState. }
  destruct created as [[[err|postID] s1] calls1]; simpl in *.
  - eapply Touches_weaken; [done|set_solver].
  - pose proof (Touches_migrateComments (Post.Comments post) zTopic postID s1 calls1)
      as Hcs.
    destruct (migrateComments _ _ _ _ _) as [[[err|] s2] calls2]; simpl in *.
    + eapply Touches_trans; (eapply Touches_weaken; [done|set_solver]).
    + pose proof (Touches_migrateVotes (Post.UserVotes post) zTopic postID s2 calls2)
        as Hvs.
      eapply Touches_trans; [eapply Touches_weaken; [exact Hcreated|set_solver]|].
      eapply Touches_trans; (eapply Touches_weaken; [done|set_solver]).
Qed.

Lemma Touches_migratePosts posts zTopic cBoard : ∀ s calls success fail,
  Touches (Migration.state s)
    (Migration.state
       (migratePosts s posts zTopic cBoard calls success fail).1.1.1)
    zTopic (keysOf posts).
Proof.
  unfold keysOf.
  induction posts as [|post posts IH]; intros s calls success fail; simpl.
  - apply Touches_refl.
  - pose proof (Touches_migratePost s post zTopic cBoard calls) as Hp.
    destruct (migratePost _ _ _ _ _) as [[[err|] s1] calls1]; simpl in Hp;
      (eapply Touches_trans;
       [eapply Touches_weaken; [exact Hp|set_solver]
       |eapply Touches_weaken; [apply IH|set_solver]]).
Qed.














(** Once a loop of [migratePost] has failed, what follows in the slice
    is not looked at. *)
Lemma migrateComments_app pre rest zTopic postID : ∀ s calls,
  migrateComments s (pre ++ rest) zTopic postID calls
  = match migrateComments s pre zTopic postID calls with
    | (Some err, s', calls') => (Some err, s', calls')
    | (None, s', calls') => migrateComments s' rest zTopic postID calls'
    end.
Proof.
  induction pre as [|c pre IH]; intros s calls; simpl; [done|].
  case_decide; [apply IH|].
  destruct (createComment _ _ _ _) as [[[err|commentID] s1] calls1]; [done|].
  apply IH.
Qed.

Lemma migrateVotes_app pre rest zTopic postID : ∀ s calls,
  migrateVotes s (pre ++ rest) zTopic postID calls
  = match migrateVotes s pre zTopic postID calls with
    | (Some err, s', calls') => (Some err, s', calls')
    | (None, s', calls') => migrateVotes s' rest zTopic postID calls'
    end.
Proof.
  induction pre as [|v pre IH]; intros s calls; simpl; [done|].
  case_decide; [apply IH|].
  destruct (createVote _ _ _ _) as [[[err|voteSuccess] s1] calls1]; [done|].
  apply IH.
Qed.

Lemma migratePost_ensurePost s post zTopic cBoard calls :
  migratePost s post zTopic cBoard calls
  = match ensurePost s post zTopic cBoard calls with
    | (inl err, s, calls) => (Some err, s, calls)
    | (inr postID, s, calls) =>
      match migrateComments s (Post.Comments post) zTopic postID calls with
      | (Some err, s, calls) => (Some err, s, calls)
      | (None, s, calls) =>
        migrateVotes s (Post.UserVotes post) zTopic postID calls
      end
    end.
Proof. reflexivity. Qed.

Lemma ensurePost_children s post zTopic cBoard calls comments votes :
  ensurePost s (Post.withUserVotes (Post.withComments post comments) votes)
             zTopic cBoard calls
  = ensurePost s post zTopic cBoard calls.
Proof. reflexivity. Qed.

Lemma migratePost_abort s post zTopic cBoard calls comments votes err s' calls' :
  migratePost s (Post.withUserVotes (Post.withComments post comments) votes)
              zTopic cBoard calls = (Some err, s', calls') →
  (votes = [] → ∀ comments' votes',
     migratePost s (Post.withUserVotes
                      (Post.withComments post (comments ++ comments')) votes')
                 zTopic cBoard calls = (Some err, s', calls'))
  ∧ (∀ votes',
     migratePost s (Post.withUserVotes (Post.withComments post comments)
                                       (votes ++ votes'))
                 zTopic cBoard calls = (Some err, s', calls')).
Proof.
  rewrite !migratePost_ensurePost, ensurePost_children. simpl.
  intros Hrun. split.
  - intros -> comments' votes'.
    rewrite !migratePost_ensurePost, ensurePost_children. simpl.
    destruct (ensurePost _ _ _ _ _) as [[[e|postID] s1] calls1]; [done|].
    rewrite migrateComments_app.
    by destruct (migrateComments s1 comments _ _ _) as [[[e|] s2] calls2].
  - intros votes'.
    rewrite !migratePost_ensurePost, ensurePost_children. simpl.
    destruct (ensurePost _ _ _ _ _) as [[[e|postID] s1] calls1]; [done|].
    destruct (migrateComments s1 comments _ _ _) as [[[e|] s2] calls2];
      [done|]. rewrite migrateVotes_app. by rewrite Hrun.
Qed.

(** C1, amended. When the creation of a record fails while a post is
    migrated, the rest of that post is left alone: whatever comments and
    votes follow the failing record, the outcome is the same. The loop
    of [Migrate] counts the failure and goes on with the next post of
    the same topic. Every entry of the ledger written before is still an
    entry after the failure and after the rest of the topic, with the
    same destination id unless that id is empty. *)
Theorem creation_failure_aborts_the_post (s : Migration.t) (post : Post.t)
    (zTopic cBoard : string) (calls : canny.Calls)
    (comments : list Comment.t) (votes : list Vote.t)
    (err : error) (s' : Migration.t) (calls' : canny.Calls) :
  migratePost s (Post.withUserVotes (Post.withComments post comments) votes)
              zTopic cBoard calls = (Some err, s', calls') →
  (votes = [] → ∀ comments' votes',
     migratePost s (Post.withUserVotes
                      (Post.withComments post (comments ++ comments')) votes')
                 zTopic cBoard calls = (Some err, s', calls'))
  ∧ (∀ votes',
     migratePost s (Post.withUserVotes (Post.withComments post comments)
                                       (votes ++ votes'))
                 zTopic cBoard calls = (Some err, s', calls'))
  ∧ (∀ posts success fail,
     migratePosts s
       (Post.withUserVotes (Post.withComments post comments) votes :: posts)
       zTopic cBoard calls success fail
     = migratePosts s' posts zTopic cBoard calls' success (fail + 1))
  ∧ Keeps (Migration.state s) (Migration.state s')
  ∧ (∀ posts success fail,
     Keeps (Migration.state s)
           (Migration.state
              (migratePosts s' posts zTopic cBoard calls' success fail).1.1.1)).
Proof.
  intros Hrun.
  destruct (migratePost_abort _ _ _ _ _ _ _ _ _ _ Hrun) as [Hcs Hvs].
  pose proof (Advances_migratePost _ _ _ _ _ _ _ _ Hrun) as Hadv.
  split_and!; [done|done| | |].
  - intros posts success fail. simpl. by rewrite Hrun.
  - apply Hadv.
  - intros posts success fail.
    destruct (migratePosts s' _ _ _ _ _ _) as [[[s2 calls2] success2] fail2]
      eqn:Hrest.
    apply Advances_migratePosts in Hrest. simpl.
    eapply Keeps_trans; [apply Hadv|apply Hrest].
Qed.

(** C10. The lookup gives the empty string both without an entry and
    for an entry holding the empty string. An empty destination id is
    written as an entry that the lookup still reports as the empty
    string: a post created with an empty id is left so by [migratePost].
    A post or a comment whose lookup is the empty string is created
    again as soon as its author is resolved. A created vote is
    ledgered as ["s"], which the lookup does not report as empty. *)
Theorem empty_id_reads_as_absent (s : Migration.t) (zTopic : string) :
  (∀ objType id,
     getIDFromState s zTopic objType id = ""
     ↔ entry (Migration.state s) zTopic (formatKey objType id) = None
       ∨ entry (Migration.state s) zTopic (formatKey objType id) = Some "")
  ∧ (∀ objType id,
     entry (Migration.state (saveIDToState s zTopic objType id ""))
           zTopic (formatKey objType id) = Some ""
     ∧ getIDFromState (saveIDToState s zTopic objType id "") zTopic objType id
       = "")
  ∧ (∀ post cBoard calls s1 calls1,
     getIDFromState s zTopic "post" (Post.ID post) = "" →
     createPost s post cBoard calls = (inr "", s1, calls1) →
     entry (Migration.state (migratePost s post zTopic cBoard calls).1.2)
           zTopic (formatKey "post" (Post.ID post)) = Some ""
     ∧ getIDFromState (migratePost s post zTopic cBoard calls).1.2
                      zTopic "post" (Post.ID post) = "")
  ∧ (∀ post cBoard calls userID s1 calls1,
     getIDFromState s zTopic "post" (Post.ID post) = "" →
     resolveUser s (Post.Author post) "post" calls = (inr userID, s1, calls1) →
     ∃ rest,
       (migratePost s post zTopic cBoard calls).2
       = calls1 ++
         (canny.Client.BaseURL (Migration.CClient s1) +:+ "/api/v1/posts/create",
          canny.createPostRequest (canny.Client.APIKey (Migration.CClient s1))
            {| canny.cp_AuthorID := userID;
               canny.cp_BoardID := cBoard;
               canny.cp_Details := sanitizeString (Post.Details post);
               canny.cp_Title := sanitizeString (Post.Title post) |}) :: rest)
  ∧ (∀ comment comments postID calls userID s1 calls1,
     getIDFromState s zTopic "comment" (Comment.ID comment) = "" →
     resolveUser s (Comment.Author comment) "comment" calls
       = (inr userID, s1, calls1) →
     ∃ rest,
       (migrateComments s (comment :: comments) zTopic postID calls).2
       = calls1 ++
         (canny.Client.BaseURL (Migration.CClient s1)
            +:+ "/api/v1/comments/create",
          canny.createCommentRequest
            (canny.Client.APIKey (Migration.CClient s1))
            {| canny.cc_AuthorID := userID;
               canny.cc_PostID := postID;
               canny.cc_Value := sanitizeString (Comment.Body comment) |})
         :: rest)
  ∧ (∀ vote postID calls voteSuccess s1 calls1,
     createVote s vote postID calls = (inr voteSuccess, s1, calls1) →
     voteSuccess = "s"
     ∧ getIDFromState (saveIDToState s1 zTopic "vote" (Vote.ID vote) voteSuccess)
                      zTopic "vote" (Vote.ID vote) ≠ "").
Proof.
  split_and!.
  - intros objType id. rewrite getIDFromState_entry.
    destruct (entry _ _ _) as [cannyID|]; simpl; naive_solver.
  - intros objType id. rewrite getIDFromState_entry, entry_saveIDToState.
    by rewrite decide_True.
  - intros post cBoard calls s1 calls1 Hfree Hcreate.
    assert (entry (Migration.state (migratePost s post zTopic cBoard calls).1.2)
                  zTopic (formatKey "post" (Post.ID post)) = Some "") as Hentry.
    { rewrite migratePost_ensurePost. unfold ensurePost.
      rewrite decide_True by done. rewrite Hcreate.
      pose proof (Touches_migrateComments (Post.Comments post) zTopic ""
                    (saveIDToState s1 zTopic "post" (Post.ID post) "") calls1
                    zTopic (formatKey "post" (Post.ID post))) as Hcs.
      destruct (migrateComments _ _ _ _ _) as [[[e|] s2] calls2];
        cbn [fst snd] in *.
      - destruct Hcs as [[_ (c & Hkey & _)%list_elem_of_fmap] | ->]; [done|].
        rewrite entry_saveIDToState. by rewrite decide_True.
      - pose proof (Touches_migrateVotes (Post.UserVotes post) zTopic "" s2
                      calls2 zTopic (formatKey "post" (Post.ID post))) as Hvs.
        destruct Hvs as [[_ (v & Hkey & _)%list_elem_of_fmap] | ->]; [done|].
        destruct Hcs as [[_ (c & Hkey & _)%list_elem_of_fmap] | ->]; [done|].
        rewrite entry_saveIDToState. by rewrite decide_True. }
    split; [done|]. by rewrite getIDFromState_entry, Hentry.
  - intros post cBoard calls userID s1 calls1 Hfree Hres.
    rewrite migratePost_ensurePost. unfold ensurePost, createPost.
    rewrite decide_True by done. rewrite Hres.
    unfold canny.Client.CreatePost.
    post_outcome Hcalls ipattern:([[e|postID] calls2]);
      simpl in Hcalls; subst calls2.
    + exists []. done.
    + destruct (migrateComments _ _ _ _ _) as [[[e|] s2] calls2] eqn:Hcs.
      * apply Advances_migrateComments in Hcs as [_ _ _ _ _ _ _ _ [new ->]].
        exists new. simpl. by rewrite <-(assoc_L (++)).
      * apply Advances_migrateComments in Hcs as [_ _ _ _ _ _ _ _ [new ->]].
        destruct (migrateVotes _ _ _ _ _) as [[r s3] calls3] eqn:Hvs.
        apply Advances_migrateVotes in Hvs as [_ _ _ _ _ _ _ _ [new' ->]].
        exists (new ++ new'). simpl. by rewrite <-!(assoc_L (++)).
  - intros comment comments postID calls userID s1 calls1 Hfree Hres. simpl.
    rewrite decide_False by (by intros ?). unfold createComment. rewrite Hres.
    unfold canny.Client.CreateComment.
    post_outcome Hcalls ipattern:([[e|commentID] calls2]);
      simpl in Hcalls; subst calls2.
    + exists []. done.
    + destruct (migrateComments _ _ _ _ _) as [[r s2] calls2] eqn:Hcs.
      apply Advances_migrateComments in Hcs as [_ _ _ _ _ _ _ _ [new ->]].
      exists new. simpl. by rewrite <-(assoc_L (++)).
  - intros vote postID calls voteSuccess s1 calls1. unfold createVote.
    destruct (resolveUser _ _ _ _) as [[[e|userID] s2] calls2]; [done|].
    destruct (canny.Client.CreateVote _ _ _) as [[e|] calls3]; [done|].
    intros [= <- <- <-]. split; [done|].
    rewrite getIDFromState_entry, entry_saveIDToState.
    by rewrite decide_True.
Qed.

End state_machine.

(** The second comment of a post has no author and no default user is
    configured: its creation fails, and a third comment and a vote that
    follow change nothing. *)
Lemma creation_failure_aborts_the_post_witness :
  let s := Demo.migration [] "" in
  let by_ann := Comment.mk 5 "first" 10 (Some Demo.user10) in
  let orphan := Comment.mk 6 "second" 12 None in
  let late := Comment.mk 9 "third" 10 (Some Demo.user10) in
  let vote := Vote.mk 7 10 (Some Demo.user10) in
  let base := Post.mk 1 "Dark mode" "please" 10 1 3 [] [] (Some Demo.user10) in
  let post comments votes :=
    Post.withUserVotes (Post.withComments base comments) votes in
  (@migratePost Demo.accepting Demo.sanitizer s (post [by_ann; orphan] [])
     "t1" "b1" []).1.1 = Some (NoUserError "comment")
  ∧ @migratePost Demo.accepting Demo.sanitizer s (post [by_ann; orphan; late] [vote])
      "t1" "b1" []
    = @migratePost Demo.accepting Demo.sanitizer s (post [by_ann; orphan] [])
        "t1" "b1" [].
Proof.
  intros s by_ann orphan late vote base post.
  destruct (@migratePost Demo.accepting Demo.sanitizer s (post [by_ann; orphan] [])
              "t1" "b1" []) as [[[err|] s'] calls'] eqn:Hrun;
    [|vm_compute in Hrun; discriminate].
  destruct (@creation_failure_aborts_the_post Demo.accepting Demo.sanitizer
              s base "t1" "b1" [] [by_ann; orphan] [] err s' calls' Hrun)
    as (Hcomments & _).
  split.
  - vm_compute in Hrun. simpl. congruence.
  - apply (Hcomments eq_refl [late] [vote]).
Defined.

(** C1, counterexample. The specification has a failed creation abort
    the rest of the topic. In topic t1 the first post fails at its
    second comment (no author, no default user); the second post of the
    same topic is created and ledgered all the same, and the topic is
    reported with one migrated post and one error. *)
Lemma failure_does_not_abort_the_topic_counterexample :
  match @Migrate Demo.source Demo.accepting Demo.json Demo.sanitizer 5
          (Demo.migration [("t1", "b1")] "") ∅ [] [] with
  | Some (None, s, _, _, calls, reports) =>
    reports = [TopicMigrated "t1" "b1" 1 1]
    ∧ getIDFromState s "t1" "post" 1 = "c1"
    ∧ getIDFromState s "t1" "comment" 6 = ""
    ∧ getIDFromState s "t1" "post" 2 = "c4"
    ∧ last calls
      = Some ("c/api/v1/votes/create",
              canny.createVoteRequest "key"
                {| canny.cv_PostID := "c4"; canny.cv_VoterID := "c3" |})
  | _ => False
  end.
Proof. vm_compute. done. Qed.

(** A destination answers every creation with an empty id: the post is
    ledgered with an empty value, and migrating it again creates it
    again. *)
Lemma empty_id_reads_as_absent_witness :
  let s0 := Demo.migration [] "u0" in
  let s1 := (@migratePost Demo.anonymous Demo.sanitizer s0 Demo.post4
               "t1" "b1" []).1.2 in
  entry (Migration.state s1) "t1" "post_4" = Some ""
  ∧ ∃ rest,
      (@migratePost Demo.anonymous Demo.sanitizer s1 Demo.post4 "t1" "b1" []).2
      = ("c/api/v1/posts/create",
         canny.createPostRequest "key"
           {| canny.cp_AuthorID := "u0"; canny.cp_BoardID := "b1";
              canny.cp_Details := "no author"; canny.cp_Title := "Orphan" |})
        :: rest.
Proof.
  intros s0 s1. split; [reflexivity|].
  destruct (@empty_id_reads_as_absent Demo.anonymous Demo.sanitizer s1 "t1")
    as (_ & _ & _ & Hagain & _).
  apply (Hagain Demo.post4 "b1" [] "u0" s1 []); reflexivity.
Defined.

(** ** Running the tool twice *)

Section rerun.
Context `{!Source, !canny.Destination, !StateJSON, !Sanitizer}.

(** What the loop over the topics preserves. *)
Lemma migrateTopics_keeps fuel topics : ∀ s net calls s' net' calls' reports,
  migrateTopics fuel s topics net calls = Some (s', net', calls', reports) →
  Keeps (Migration.state s) (Migration.state s')
  ∧ KeepsUsers (Migration.UserMapping s) (Migration.UserMapping s')
  ∧ Migration.StateFile s' = Migration.StateFile s
  ∧ Migration.ParallelLoad s' = Migration.ParallelLoad s.
Proof.
  induction topics as [|[zTopic cBoard] topics IH];
    intros s net calls s' net' calls' reports; simpl.
  - intros [= <- <- <- <-].
    split_and!; [apply Keeps_refl|apply KeepsUsers_refl|done..].
  - destruct (GetPosts _ _ _ _ _)
      as [[[[[posts errs] [err|]] zclient]|] net1]; [| |done].
    + destruct (migrateTopics _ _ _ _ _) as [[[[s2 net2] calls2] reports2]|]
        eqn:Hrest; [|done].
      intros [= <- <- <- <-]. by apply IH in Hrest.
    + destruct (migratePosts _ _ _ _ _ _ _) as [[[s1 calls1] success] fail]
        eqn:Hposts.
      apply Advances_migratePosts in Hposts as []. simpl in *.
      destruct (migrateTopics _ _ _ _ _) as [[[[s2 net2] calls2] reports2]|]
        eqn:Hrest; [|done].
      intros [= <- <- <- <-]. apply IH in Hrest as (Hk & Hu & Hf & Hp).
      split_and!; [by eapply Keeps_trans| |congruence..].
      intros id userID Hid Hne. eauto.
Qed.





(** C8, amended. A user whose source id is mapped to a non-empty
    destination id is resolved to it without any call. Otherwise the
    resolution issues exactly one find-or-create call and, when the call
    succeeds, stores its result under the source id. A non-empty id
    stored in the mapping stays there while the posts of a topic, and
    the topics of a run, are migrated, so later resolutions of that user
    issue no call. *)
Theorem findOrCreateUser_mapping_then_cache (s : Migration.t) (user : User.t)
    (calls : canny.Calls) :
  (∀ userID, Migration.UserMapping s !! User.ID user = Some userID →
     userID ≠ "" →
     findOrCreateUser s user calls = (inr userID, s, calls))
  ∧ (default "" (Migration.UserMapping s !! User.ID user) = "" →
     (findOrCreateUser s user calls).2
     = calls ++
       [(canny.Client.BaseURL (Migration.CClient s)
           +:+ "/api/v1/users/find_or_create",
         canny.findOrCreateUserRequest
           (canny.Client.APIKey (Migration.CClient s))
           {| canny.fu_Created := User.CreatedAt user;
              canny.fu_Email := User.Email user;
              canny.fu_Name := User.Name user;
              canny.fu_UserID := User.ExternalID user |})]
     ∧ ∀ userID, (findOrCreateUser s user calls).1.1 = inr userID →
         Migration.UserMapping (findOrCreateUser s user calls).1.2
           !! User.ID user = Some userID)
  ∧ (∀ userID posts zTopic cBoard success fail,
       Migration.UserMapping s !! User.ID user = Some userID →
       userID ≠ "" →
       Migration.UserMapping
         (migratePosts s posts zTopic cBoard calls success fail).1.1.1
         !! User.ID user = Some userID)
  ∧ (∀ userID fuel topics net s' net' calls' reports,
       Migration.UserMapping s !! User.ID user = Some userID →
       userID ≠ "" →
       migrateTopics fuel s topics net calls = Some (s', net', calls', reports) →
       Migration.UserMapping s' !! User.ID user = Some userID).
Proof.
  split_and!.
  - intros userID Hid Hne. by apply findOrCreateUser_known.
  - intros Hun. destruct (findOrCreateUser_unknown s user calls Hun) as [Hc Hs].
    split; [done|]. intros userID Hres. rewrite Hres in Hs. rewrite Hs. simpl.
    apply lookup_insert_eq.
  - intros userID posts zTopic cBoard success fail Hid Hne.
    destruct (migratePosts _ _ _ _ _ _ _) as [[[s' calls'] success'] fail']
      eqn:Hrun.
    apply Advances_migratePosts in Hrun. simpl.
    by apply (adv_UserMapping _ _ _ _ Hrun).
  - intros userID fuel topics net s' net' calls' reports Hid Hne Hrun.
    destruct (migrateTopics_keeps _ _ _ _ _ _ _ _ _ Hrun) as (_ & Hkeep & _).
    by apply Hkeep.
Qed.


End rerun.

(** Agent 10 is mapped to an admin; user 11 is unknown and is found or
    created by the first of the destination's calls. *)
Lemma findOrCreateUser_mapping_then_cache_witness :
  let s := Migration.withUserMapping (Demo.migration [] "") {[ 10 := "admin" ]} in
  @findOrCreateUser Demo.accepting s Demo.user10 [] = (inr "admin", s, [])
  ∧ (@findOrCreateUser Demo.accepting s Demo.user11 []).1.1 = inr "c0"
  ∧ Migration.UserMapping (@findOrCreateUser Demo.accepting s Demo.user11 []).1.2
      !! 11 = Some "c0"
  ∧ length (@findOrCreateUser Demo.accepting s Demo.user11 []).2 = 1%nat.
Proof.
  intros s.
  pose proof (@findOrCreateUser_mapping_then_cache Demo.source Demo.accepting
                Demo.sanitizer s Demo.user10 []) as (Hknown & _ & _).
  pose proof (@findOrCreateUser_mapping_then_cache Demo.source Demo.accepting
                Demo.sanitizer s Demo.user11 []) as (_ & Hunknown & _).
  destruct Hunknown as [Hcalls Hcached]; [reflexivity|].
  split_and!.
  - apply Hknown; [reflexivity|done].
  - reflexivity.
  - apply Hcached. reflexivity.
  - by rewrite Hcalls.
Defined.

(** C8, counterexample. The specification has an agent entry prevent
    any call, and an unmapped user cost one call per run. An agent entry
    may exist with an empty destination id ([--agent 10:]), and then a
    find-or-create call is issued; and when the destination is down, two
    posts by the same unmapped author make two find-or-create calls in
    one run. *)
Lemma findOrCreateUser_counterexample :
  let mapped := Migration.withUserMapping (Demo.migration [] "") {[ 10 := "" ]} in
  let ann := (Demo.cclient.(canny.Client.BaseURL) +:+ "/api/v1/users/find_or_create",
              canny.findOrCreateUserRequest "key"
                {| canny.fu_Created := "2019-01-01";
                   canny.fu_Email := "ann@example.com";
                   canny.fu_Name := "Ann";
                   canny.fu_UserID := "x10" |}) in
  let by_ann id := Post.mk id "title" "details" 10 0 0 [] [] (Some Demo.user10) in
  is_Some (Migration.UserMapping mapped !! 10)
  ∧ (@findOrCreateUser Demo.accepting mapped Demo.user10 []).2 = [ann]
  ∧ (@migratePosts Demo.unavailable Demo.sanitizer (Demo.migration [] "")
       [by_ann 1; by_ann 2] "t1" "b1" [] 0 0).1.1.2 = [ann; ann].
Proof. vm_compute. split_and!; [by eexists|done..]. Qed.




(** ** The persisted ledger *)

Section persistence.
Context `{!Source, !canny.Destination, !StateJSON, !Sanitizer}.


End persistence.


(** ** Enrichment failures *)

Section enrichment.
Context `{!Source, !canny.Destination, !StateJSON, !Sanitizer}.

Lemma getComments_loop_net fuel postID : ∀ url page acc net,
  (getComments_loop fuel postID url page acc net).1
  = (getComments_loop fuel postID url page acc []).1.
Proof.
  induction fuel as [|fuel IH]; intros url page acc net; simpl; [done|].
  rewrite !get_fetch. destruct (fetch _ _) as [err|response]; [done|].
  case_decide; [done|]. case_decide; [done|].
  by rewrite (IH _ _ _ (net ++ [url])), (IH _ _ _ ([] ++ [url])).
Qed.

Lemma getVotes_loop_net fuel postID : ∀ url page acc net,
  (getVotes_loop fuel postID url page acc net).1
  = (getVotes_loop fuel postID url page acc []).1.
Proof.
  induction fuel as [|fuel IH]; intros url page acc net; simpl; [done|].
  rewrite !get_fetch. destruct (fetch _ _) as [err|response]; [done|].
  case_decide; [done|]. case_decide; [done|].
  by rewrite (IH _ _ _ (net ++ [url])), (IH _ _ _ ([] ++ [url])).
Qed.

Lemma loadDetails_enrich fuel s post net :
  (loadDetails fuel s post net).1 = enrich fuel s post.
Proof.
  unfold enrich, loadDetails, getComments, getVotes.
  case_decide.
  - pose proof (getComments_loop_net fuel (Post.ID post)
      (commentsURL (Client.BaseURL s) (Post.ID post)) 0 [] net) as Hc.
    destruct (getComments_loop _ _ _ _ _ net) as [rc netc],
             (getComments_loop _ _ _ _ _ []) as [rc0 netc0].
    simpl in Hc. subst rc0. destruct rc as [[err|comments]|]; [done| |done].
    case_decide; [|done].
    pose proof (getVotes_loop_net fuel (Post.ID post)
      (votesURL (Client.BaseURL s) (Post.ID post)) 0 [] netc) as Hv.
    pose proof (getVotes_loop_net fuel (Post.ID post)
      (votesURL (Client.BaseURL s) (Post.ID post)) 0 [] netc0) as Hv0.
    simpl in *.
    destruct (getVotes_loop _ _ _ _ _ netc) as [rv netv],
             (getVotes_loop _ _ _ _ _ netc0) as [rv0 netv0].
    simpl in *. rewrite Hv, Hv0.
    by destruct (getVotes_loop _ _ _ _ _ _) as [[[err|votes]|] netv1].
  - case_decide; [|done].
    pose proof (getVotes_loop_net fuel (Post.ID post)
      (votesURL (Client.BaseURL s) (Post.ID post)) 0 [] net) as Hv.
    destruct (getVotes_loop _ _ _ _ _ net) as [rv netv],
             (getVotes_loop _ _ _ _ _ []) as [rv0 netv0].
    simpl in Hv. subst rv0. by destruct rv as [[err|votes]|].
Qed.

Lemma FetchFails_enrich fuel s post err :
  FetchFails fuel s post err →
  ∃ ids, enrich fuel s post = Some (ids, inl err).
Proof.
  unfold FetchFails, enrich, loadDetails.
  intros [[Hcount Hfetch]|(Hcomments & Hcount & Hfetch)].
  - rewrite decide_True by done.
    destruct (getComments _ _ _ _) as [rc netc]. simpl in Hfetch. subst rc.
    eauto.
  - assert (∀ net, (getVotes fuel s (Post.ID post) net).1 = Some (inl err))
      as Hvotes.
    { intros net. unfold getVotes in *. by rewrite getVotes_loop_net. }
    case_decide as Hc.
    + destruct Hcomments as [?|[comments Hok]]; [lia|].
      destruct (getComments _ _ _ _) as [rc netc]. simpl in Hok. subst rc.
      cbn [Post.withComments Post.VoteCount Post.ID].
      rewrite decide_True by done.
      specialize (Hvotes netc).
      destruct (getVotes fuel s (Post.ID post) netc) as [rv netv].
      simpl in Hvotes. subst rv. eauto.
    + rewrite decide_True by done.
      destruct (getVotes fuel s (Post.ID post) []) as [rv netv].
      simpl in Hfetch. subst rv. eauto.
Qed.

Lemma detailsLoader_streams fuel s postsCh : ∀ net resCh usersCh errCh,
  (detailsLoader fuel s postsCh net).1 = Some (resCh, usersCh, errCh) →
  resCh = omap (enriched fuel s) postsCh
  ∧ errCh = omap (enrichError fuel s) postsCh.
Proof.
  induction postsCh as [|post postsCh IH]; intros net resCh usersCh errCh;
    simpl.
  - by intros [= <- <- <-].
  - pose proof (loadDetails_enrich fuel s post net) as Hpost.
    unfold enriched, enrichError.
    destruct (loadDetails _ _ _ _) as [r net1]. simpl in Hpost. rewrite <-Hpost.
    destruct r as [[ids sent]|]; [|done].
    specialize (IH net1).
    destruct (detailsLoader _ _ _ _) as [[[[res users] errs]|] net2]; [|done].
    destruct (IH _ _ _ eq_refl) as [-> ->]. simpl.
    intros [= <- <- <-]. by destruct sent.
Qed.

Lemma enriched_ID fuel s post post' :
  enriched fuel s post = Some post' → Post.ID post' = Post.ID post.
Proof.
  unfold enriched, enrich, loadDetails.
  destruct (decide (0 < Post.CommentCount post)).
  - destruct (getComments _ _ _ _) as [[[err|comments]|] netc]; simpl; [done| |done].
    destruct (decide (0 < Post.VoteCount post)).
    + destruct (getVotes _ _ _ _) as [[[err|votes]|] netv]; simpl; [done| |done].
      by intros [= <-].
    + by intros [= <-].
  - destruct (decide (0 < Post.VoteCount post)).
    + destruct (getVotes _ _ _ _) as [[[err|votes]|] netv]; simpl; [done| |done].
      by intros [= <-].
    + by intros [= <-].
Qed.

Lemma NoDup_map_inj {A B} (f : A → B) (l : list A) x y :
  NoDup (map f l) → x ∈ l → y ∈ l → f x = f y → x = y.
Proof.
  induction l as [|a l IH]; simpl; [set_solver|].
  rewrite NoDup_cons, !elem_of_cons. intros [Hnotin Hnd] [->|Hx] [->|Hy] Heq;
    [done| | |by apply IH].
  - destruct Hnotin. rewrite Heq. by apply list_elem_of_fmap_2.
  - destruct Hnotin. rewrite <-Heq. by apply list_elem_of_fmap_2.
Qed.

Lemma failed_post_not_among_enriched fuel s sent post err :
  NoDup (map Post.ID sent) → post ∈ sent →
  (∃ ids, enrich fuel s post = Some (ids, inl err)) →
  err ∈ omap (enrichError fuel s) sent
  ∧ ∀ post', post' ∈ omap (enriched fuel s) sent →
             Post.ID post' ≠ Post.ID post.
Proof.
  intros Hnd Hin [ids Hfail]. split.
  - apply list_elem_of_omap. exists post. split; [done|].
    unfold enrichError. by rewrite Hfail.
  - intros post' (origin & Horigin & Henriched)%list_elem_of_omap Hid.
    apply enriched_ID in Henriched as Hsame.
    assert (origin = post) as ->
      by (eapply (NoDup_map_inj Post.ID); [done..|congruence]).
    unfold enriched in Henriched. by rewrite Hfail in Henriched.
Qed.

Lemma setUsers_ID s posts post :
  post ∈ setUsers s posts → ∃ origin, origin ∈ posts ∧ Post.ID post = Post.ID origin.
Proof.
  unfold setUsers. intros (origin & -> & Hin)%list_elem_of_fmap. by exists origin.
Qed.

Lemma Sends_refl posts calls : Sends posts calls calls.
Proof. exists []. by rewrite app_nil_r. Qed.

Lemma Sends_trans posts c1 c2 c3 :
  Sends posts c1 c2 → Sends posts c2 c3 → Sends posts c1 c3.
Proof.
  intros (n1 & -> & Hn1) (n2 & -> & Hn2). exists (n1 ++ n2).
  split; [by rewrite (assoc_L (++))|by apply Forall_app].
Qed.

Lemma CallFor_mono posts posts' call :
  (∀ post, post ∈ posts → post ∈ posts') →
  CallFor posts call → CallFor posts' call.
Proof. unfold CallFor. destruct call.2; naive_solver. Qed.

Lemma Sends_mono posts posts' c1 c2 :
  (∀ post, post ∈ posts → post ∈ posts') →
  Sends posts c1 c2 → Sends posts' c1 c2.
Proof.
  intros Hsub (new & -> & Hnew). exists new. split; [done|].
  eapply Forall_impl; [done|]. intros call. by apply CallFor_mono.
Qed.

Lemma Sends_one posts calls call :
  CallFor posts call → Sends posts calls (calls ++ [call]).
Proof. intros Hcall. exists [call]. split; [done|]. by constructor. Qed.

Lemma resolveUser_sends s post user objType calls :
  (∀ u, user = Some u → u ∈ peopleOf post) →
  Sends [post] calls (resolveUser s user objType calls).2.
Proof.
  intros Hin. unfold resolveUser. destruct user as [u|].
  - unfold findOrCreateUser. case_decide; [apply Sends_refl|].
    unfold canny.Client.FindOrCreateUser.
    post_outcome Hcalls ipattern:([[e|userID] calls1]);
      simpl in *; subst calls1; apply Sends_one;
      exists post, u; (split_and!; [set_solver|by apply Hin|done..]).
  - case_decide; apply Sends_refl.
Qed.

Lemma createPost_sends s post cBoard calls :
  Sends [post] calls (createPost s post cBoard calls).2.
Proof.
  unfold createPost.
  pose proof (resolveUser_sends s post (Post.Author post) "post" calls) as Hu.
  destruct (resolveUser _ _ _ _) as [[[e|userID] s1] calls1]; simpl in Hu.
  - apply Hu. intros u Hau. unfold peopleOf. rewrite Hau. set_solver.
  - unfold canny.Client.CreatePost.
    post_outcome Hcalls ipattern:([res calls2]).
    simpl in *. subst calls2. eapply Sends_trans.
    + apply Hu. intros u Hau. unfold peopleOf. rewrite Hau. set_solver.
    + apply Sends_one. exists post. split_and!; [set_solver|done..].
Qed.

Lemma createComment_sends s post comment postID calls :
  comment ∈ Post.Comments post →
  Sends [post] calls (createComment s comment postID calls).2.
Proof.
  intros Hin. unfold createComment.
  pose proof (resolveUser_sends s post (Comment.Author comment) "comment" calls)
    as Hu.
  assert (∀ u, Comment.Author comment = Some u → u ∈ peopleOf post) as Hpeople.
  { intros u Hau. unfold peopleOf. rewrite !elem_of_app. right. left.
    apply list_elem_of_omap. eauto. }
  destruct (resolveUser _ _ _ _) as [[[e|userID] s1] calls1]; simpl in Hu;
    [by apply Hu|].
  unfold canny.Client.CreateComment.
  post_outcome Hcalls ipattern:([res calls2]).
  simpl in *. subst calls2. eapply Sends_trans; [by apply Hu|].
  apply Sends_one. exists post, comment. split_and!; [set_solver|done..].
Qed.

Lemma createVote_sends s post vote postID calls :
  vote ∈ Post.UserVotes post → Vote.User vote ≠ None →
  Sends [post] calls (createVote s vote postID calls).2.
Proof.
  intros Hin Hvoter. unfold createVote.
  pose proof (resolveUser_sends s post (Vote.User vote) "vote" calls) as Hu.
  assert (∀ u, Vote.User vote = Some u → u ∈ peopleOf post) as Hpeople.
  { intros u Hau. unfold peopleOf. rewrite !elem_of_app. right. right.
    apply list_elem_of_omap. eauto. }
  destruct (resolveUser _ _ _ _) as [[[e|userID] s1] calls1]; simpl in Hu;
    [by apply Hu|].
  unfold canny.Client.CreateVote.
  post_outcome Hcalls ipattern:([[e|resp] calls2]);
    simpl in *; subst calls2.
  - eapply Sends_trans; [by apply Hu|].
    apply Sends_one. exists post, vote. split_and!; [set_solver|done..].
  - case_decide; simpl; (eapply Sends_trans; [by apply Hu|]);
      apply Sends_one; exists post, vote; (split_and!; [set_solver|done..]).
Qed.

Lemma migrateComments_sends post zTopic postID comments : ∀ s calls,
  (∀ comment, comment ∈ comments → comment ∈ Post.Comments post) →
  Sends [post] calls (migrateComments s comments zTopic postID calls).2.
Proof.
  induction comments as [|c comments IH]; intros s calls Hsub; simpl.
  - apply Sends_refl.
  - case_decide; [apply IH; set_solver|].
    pose proof (createComment_sends s post c postID calls) as Hc.
    destruct (createComment _ _ _ _) as [[[e|commentID] s1] calls1];
      simpl in Hc; [apply Hc; set_solver|].
    eapply Sends_trans; [apply Hc; set_solver|apply IH; set_solver].
Qed.

Lemma migrateVotes_sends post zTopic postID votes : ∀ s calls,
  (∀ vote, vote ∈ votes → vote ∈ Post.UserVotes post) →
  Sends [post] calls (migrateVotes s votes zTopic postID calls).2.
Proof.
  induction votes as [|v votes IH]; intros s calls Hsub; simpl.
  - apply Sends_refl.
  - case_decide as Hskip; [apply IH; set_solver|].
    pose proof (createVote_sends s post v postID calls) as Hv.
    assert (Vote.User v ≠ None) as Hvoter by (intros ?; apply Hskip; by right).
    destruct (createVote _ _ _ _) as [[[e|voteSuccess] s1] calls1];
      simpl in Hv; [apply Hv; [set_solver|done]|].
    eapply Sends_trans; [apply Hv; [set_solver|done]|apply IH; set_solver].
Qed.

Lemma migratePost_sends s post zTopic cBoard calls :
  Sends [post] calls (migratePost s post zTopic cBoard calls).2.
Proof.
  rewrite migratePost_ensurePost. unfold ensurePost.
  assert (Sends [post] calls
            (if decide (getIDFromState s zTopic "post" (Post.ID post) = "")
             then match createPost s post cBoard calls with
                  | (inl err, s, calls) => (inl err, s, calls)
                  | (inr postID, s, calls) =>
                    (inr postID,
                     saveIDToState s zTopic "post" (Post.ID post) postID, calls)
                  end
             else (inr (getIDFromState s zTopic "post" (Post.ID post)), s, calls)).2)
    as Hfirst.
  { case_decide; [|apply Sends_refl].
    pose proof (createPost_sends s post cBoard calls) as Hp.
    by destruct (createPost _ _ _ _) as [[[e|postID] s1] calls1]. }
  destruct (if decide _ then _ else _) as [[[e|postID] s1] calls1];
    simpl in Hfirst; [done|].
  pose proof (migrateComments_sends post zTopic postID (Post.Comments post)
                s1 calls1 ltac:(done)) as Hcs.
  destruct (migrateComments _ _ _ _ _) as [[[e|] s2] calls2]; simpl in Hcs.
  - by eapply Sends_trans.
  - eapply Sends_trans; [done|]. eapply Sends_trans; [done|].
    by apply migrateVotes_sends.
Qed.

Lemma migratePosts_sends posts zTopic cBoard : ∀ s calls success fail,
  Sends posts calls
        (migratePosts s posts zTopic cBoard calls success fail).1.1.2.
Proof.
  induction posts as [|post posts IH]; intros s calls success fail; simpl.
  - apply Sends_refl.
  - pose proof (migratePost_sends s post zTopic cBoard calls) as Hp.
    destruct (migratePost _ _ _ _ _) as [[[e|] s1] calls1]; simpl in Hp;
      (eapply Sends_trans;
       [eapply Sends_mono; [|exact Hp]; set_solver
       |eapply Sends_mono; [|apply IH]; set_solver]).
Qed.

Lemma post_key_outside posts id :
  (∀ post, post ∈ posts → Post.ID post ≠ id) →
  formatKey "post" id ∉ keysOf posts.
Proof.
  intros Hids (post & Hkey & Hin)%list_elem_of_bind. unfold postKeys in Hkey.
  rewrite elem_of_cons, elem_of_app, !list_elem_of_fmap in Hkey.
  destruct Hkey as [Hkey|[(c & Hkey & _)|(v & Hkey & _)]]; [|done..].
  apply formatKey_inj in Hkey. by eapply Hids.
Qed.

Lemma comment_key_outside posts id :
  (∀ post comment, post ∈ posts → comment ∈ Post.Comments post →
     Comment.ID comment ≠ id) →
  formatKey "comment" id ∉ keysOf posts.
Proof.
  intros Hids (post & Hkey & Hin)%list_elem_of_bind. unfold postKeys in Hkey.
  rewrite elem_of_cons, elem_of_app, !list_elem_of_fmap in Hkey.
  destruct Hkey as [Hkey|[(c & Hkey & Hc)|(v & Hkey & _)]]; [done| |done].
  apply formatKey_inj in Hkey. by eapply Hids.
Qed.

Lemma vote_key_outside posts id :
  (∀ post vote, post ∈ posts → vote ∈ Post.UserVotes post →
     Vote.ID vote ≠ id) →
  formatKey "vote" id ∉ keysOf posts.
Proof.
  intros Hids (post & Hkey & Hin)%list_elem_of_bind. unfold postKeys in Hkey.
  rewrite elem_of_cons, elem_of_app, !list_elem_of_fmap in Hkey.
  destruct Hkey as [Hkey|[(c & Hkey & Hc)|(v & Hkey & Hv)]]; [done..|].
  apply formatKey_inj in Hkey. by eapply Hids.
Qed.

Lemma migratePosts_untouched m posts zTopic cBoard calls success fail key :
  key ∉ keysOf posts →
  entry (Migration.state
           (migratePosts m posts zTopic cBoard calls success fail).1.1.1)
        zTopic key
  = entry (Migration.state m) zTopic key.
Proof.
  intros Hout.
  by destruct (Touches_migratePosts posts zTopic cBoard m calls success fail
                 zTopic key) as [[_ ?]|?].
Qed.

(** C3. Let the comment fetch or the vote fetch of a post of the topic
    fail. The worker sends the error on the error stream and the post on
    no stream: the collected posts are the enrichments of the posts that
    did not fail, and the error is among the collected errors. When the
    posts of the topic have distinct ids, no post returned by [GetPosts]
    has the id of the failed one. And while posts none of which has that
    id are migrated, in whatever order, the destination only receives
    calls made for their records, the ledger entry of the failed post
    is not written, and neither is the entry of any comment or vote that
    is not a comment or vote of theirs. *)
Theorem failed_enrichment_is_left_out (fuel : nat) (s : Client.t)
    (topic : string) (parallel : Z) (net : Net) (sent : list Post.t)
    (fatal : option error) (net1 : Net) (post : Post.t) (err : error) :
  getPosts_loop fuel (postsURL (Client.BaseURL s) topic) 0 [] net
    = (Some (sent, fatal), net1) →
  post ∈ sent →
  FetchFails fuel s post err →
  (∃ ids, ∀ net, (loadDetails fuel s post net).1 = Some (ids, inl err))
  ∧ enriched fuel s post = None
  ∧ (∀ g net',
       gatherPosts fuel s topic parallel net = (Some g, net') →
       Gathered.posts g = omap (enriched fuel s) sent
       ∧ err ∈ Gathered.errs g)
  ∧ (NoDup (map Post.ID sent) →
     ∀ posts errs fatalError s' net',
       GetPosts fuel s topic parallel net
         = (Some (posts, errs, fatalError, s'), net') →
       ∀ post', post' ∈ posts → Post.ID post' ≠ Post.ID post)
  ∧ (∀ posts (m : Migration.t) (cBoard : string) (calls : canny.Calls)
       (success fail : Z),
       (∀ post', post' ∈ posts → Post.ID post' ≠ Post.ID post) →
       let after := migratePosts m posts topic cBoard calls success fail in
       Sends posts calls after.1.1.2
       ∧ entry (Migration.state after.1.1.1) topic
               (formatKey "post" (Post.ID post))
         = entry (Migration.state m) topic (formatKey "post" (Post.ID post))
       ∧ (∀ id,
            (∀ post' comment, post' ∈ posts →
               comment ∈ Post.Comments post' → Comment.ID comment ≠ id) →
            entry (Migration.state after.1.1.1) topic (formatKey "comment" id)
            = entry (Migration.state m) topic (formatKey "comment" id))
       ∧ (∀ id,
            (∀ post' vote, post' ∈ posts →
               vote ∈ Post.UserVotes post' → Vote.ID vote ≠ id) →
            entry (Migration.state after.1.1.1) topic (formatKey "vote" id)
            = entry (Migration.state m) topic (formatKey "vote" id))).
Proof.
  intros Hloop Hin Hfails.
  apply FetchFails_enrich in Hfails as Hfail.
  assert (∀ g net', gatherPosts fuel s topic parallel net = (Some g, net') →
            Gathered.posts g = omap (enriched fuel s) sent
            ∧ Gathered.errs g = omap (enrichError fuel s) sent) as Hgather.
  { intros g net'. unfold gatherPosts. case_decide; [done|]. rewrite Hloop.
    case_decide; [done|].
    pose proof (detailsLoader_streams fuel s sent net1) as Hstreams.
    destruct (detailsLoader _ _ _ _) as [[[[ps us] es]|] net2]; [|done].
    destruct (Hstreams _ _ _ eq_refl) as [-> ->].
    destruct (collectUsers _ _ _) as [users toLoad]. by intros [= <- <-]. }
  split_and!.
  - destruct Hfail as [ids Hfail]. exists ids. intros net0.
    by rewrite loadDetails_enrich.
  - destruct Hfail as [ids Hfail]. unfold enriched. by rewrite Hfail.
  - intros g net' Hg. destruct (Hgather _ _ Hg) as [-> ->]. split; [done|].
    apply list_elem_of_omap. exists post. split; [done|].
    destruct Hfail as [ids Hfail]. unfold enrichError. by rewrite Hfail.
  - intros Hnd posts errs fatalError s' net' Hget.
    destruct (failed_post_not_among_enriched _ _ _ _ _ Hnd Hin Hfail)
      as [_ Hleft].
    unfold GetPosts in Hget.
    destruct (gatherPosts _ _ _ _ _) as [[g|] net2]; [|done].
    destruct (Hgather _ _ eq_refl) as [Hposts _].
    destruct (loadUsers _ _ _) as [[[e|] s2] net3];
      injection Hget as <- <- <- <- <-; [set_solver|].
    intros post' (origin & Horigin & ->)%setUsers_ID.
    apply Hleft. by rewrite <-Hposts.
  - intros posts m cBoard calls success fail Hids. split_and!.
    + apply migratePosts_sends.
    + by apply migratePosts_untouched, post_key_outside.
    + intros id Hothers. by apply migratePosts_untouched, comment_key_outside.
    + intros id Hothers. by apply migratePosts_untouched, vote_key_outside.
Qed.

End enrichment.

(** In topic t2 the comments of post 3 are answered with status 404:
    posts 4 and 1 are returned, the error is reported, and the
    migration of the topic leaves post 3 out of the ledger. *)
Lemma failed_enrichment_is_left_out_witness :
  let err :=
    CommentsPageError 0 3
      (StatusError "z/api/v2/community/posts/3/comments.json?sort_by=created_at"
                   404 "not found") in
  match @GetPosts Demo.source 5 Demo.zclient "t2" 10 [] with
  | (Some (posts, errs, None, _), _) =>
    map Post.ID posts = [4; 1] ∧ errs = [err]
    ∧ entry (Migration.state
               (@migratePosts Demo.accepting Demo.sanitizer
                  (Demo.migration [] "u0") posts "t2" "b2" [] 0 0).1.1.1)
            "t2" (formatKey "post" 3) = None
  | _ => False
  end.
Proof.
  intros err.
  destruct (@GetPosts Demo.source 5 Demo.zclient "t2" 10 [])
    as [[[[[posts errs] [fatal|]] s']|] net'] eqn:Hget;
    [vm_compute in Hget; discriminate| |vm_compute in Hget; discriminate].
  destruct (@failed_enrichment_is_left_out Demo.source Demo.accepting
              Demo.sanitizer 5 Demo.zclient "t2" 10 []
              [Demo.post4; Demo.post3; Demo.post1] None
              ["z/api/v2/community/topics/t2/posts.json?sort_by=created_at"]
              Demo.post3 err) as (_ & _ & _ & Hids & Hledger).
  - reflexivity.
  - set_solver.
  - left. split; [done|reflexivity].
  - specialize (Hids ltac:(vm_compute; repeat constructor; set_solver)
                     _ _ _ _ _ Hget).
    destruct (Hledger posts (Demo.migration [] "u0") "b2" [] 0 0 Hids)
      as (_ & Hpost & _).
    split_and!.
    + vm_compute in Hget. by injection Hget as <- <- _ _.
    + vm_compute in Hget. by injection Hget as <- <- _ _.
    + exact Hpost.
Defined.
